(** * N-Queens as a constraint satisfaction problem, solved by backtracking

    A shallow embedding of the notebook [AIND-Constraint_Satisfaction.ipynb]:
    the symbolic constraints [diffRow] and [diffDiag], the class
    [NQueensCSP] and the search functions [select], [order_values],
    [backtracking_search] and [backtrack].

    Python dictionaries are finite maps ([gmap]); the assignment dictionary,
    which the search mutates in place and shares between all recursive
    calls, is threaded explicitly through [backtrack]. Exceptions are the
    left summand of [result]. *)

From stdpp Require Import base decidable option list strings pretty gmap fin_maps.
From Stdlib Require Import ZArith Lia.

Local Open Scope Z_scope.

(** ** Exceptions *)

Inductive exn : Type :=
| ValueError
| KeyError
| AttributeError.

Abbreviation result A := (sum exn A).

Global Instance exn_eq_dec : EqDecision exn.
Proof. solve_decision. Defined.

(** ** Symbols and symbolic expressions

    A sympy symbol is identified by its name. *)

Abbreviation symbol := string (only parsing).

Definition Symbol (name : string) : symbol := name.

(** [symbols prefix n] is sympy's [symbols('<prefix>:<n>')] for a range
    [0 .. n-1]: the symbols [<prefix>0], ..., [<prefix>(n-1)]. *)
Definition symbols (prefix : string) (n : nat) : list symbol :=
  (λ i : nat, Symbol (prefix +:+ pretty i)) <$> seq 0 n.

(** The fragment of sympy expressions the notebook builds: integer
    arithmetic over symbols, disequalities and conjunctions. *)
Inductive expr : Type :=
| Sym (s : symbol)
| Int (z : Z)
| Add (a b : expr)
| Sub (a b : expr).

Inductive bexpr : Type :=
| Ne (a b : expr)
| And (p q : bexpr).

Global Instance expr_eq_dec : EqDecision expr.
Proof. solve_decision. Defined.

Global Instance bexpr_eq_dec : EqDecision bexpr.
Proof. solve_decision. Defined.

Fixpoint expr_free_symbols (e : expr) : list symbol :=
  match e with
  | Sym s => [s]
  | Int _ => []
  | Add a b | Sub a b => expr_free_symbols a ++ expr_free_symbols b
  end.

Fixpoint free_symbols (b : bexpr) : list symbol :=
  match b with
  | Ne a b => expr_free_symbols a ++ expr_free_symbols b
  | And p q => free_symbols p ++ free_symbols q
  end.

(** Substitution of expressions for symbols. The replacement values used
    by the notebook are symbols of the model or integers, never symbols
    that are themselves replaced, so sympy's substitution acts as a
    simultaneous one. *)
Fixpoint subs_expr (m : gmap symbol expr) (e : expr) : expr :=
  match e with
  | Sym s => default (Sym s) (m !! s)
  | Int z => Int z
  | Add a b => Add (subs_expr m a) (subs_expr m b)
  | Sub a b => Sub (subs_expr m a) (subs_expr m b)
  end.

Fixpoint subs_bexpr (m : gmap symbol expr) (b : bexpr) : bexpr :=
  match b with
  | Ne a b => Ne (subs_expr m a) (subs_expr m b)
  | And p q => And (subs_bexpr m p) (subs_bexpr m q)
  end.

(** The value of an arithmetic expression, when all its symbols are bound. *)
Fixpoint eval_expr (e : expr) : option Z :=
  match e with
  | Sym _ => None
  | Int z => Some z
  | Add a b =>
      match eval_expr a, eval_expr b with
      | Some x, Some y => Some (x + y)
      | _, _ => None
      end
  | Sub a b =>
      match eval_expr a, eval_expr b with
      | Some x, Some y => Some (x - y)
      | _, _ => None
      end
  end.

(** Truth of a boolean expression: true, false, or still symbolic. *)
Inductive truth : Type :=
| IsTrue
| IsFalse
| Indeterminate.

Global Instance truth_eq_dec : EqDecision truth.
Proof. solve_decision. Defined.

Fixpoint evaluate (b : bexpr) : truth :=
  match b with
  | Ne a b =>
      match eval_expr a, eval_expr b with
      | Some x, Some y => if decide (x = y) then IsFalse else IsTrue
      | _, _ => Indeterminate
      end
  | And p q =>
      match evaluate p, evaluate q with
      | IsFalse, _ | _, IsFalse => IsFalse
      | IsTrue, IsTrue => IsTrue
      | _, _ => Indeterminate
      end
  end.

(** ** Constraints

    Modelled from the spec: the helper [util.constraint], which the
    notebook imports and whose source is not part of the repository
    snapshot. Following sections 3 and 9 of the specification a constraint
    is a named predicate over symbols that can be substituted into and
    evaluated to true, false or indeterminate; as a Python condition it is
    false only when it evaluates to false, so a partially bound constraint
    passes. Two constraints are the same element of a Python set when they
    have the same name and the same expression. *)
Record Constraint : Type := constraint { name : string; expression : bexpr }.

Global Instance Constraint_eq_dec : EqDecision Constraint.
Proof. solve_decision. Defined.

(** [c.subs(m)] *)
Definition subs (m : gmap symbol expr) (c : Constraint) : Constraint :=
  constraint (name c) (subs_bexpr m (expression c)).

(** [c.free_symbols], a set *)
Definition constraint_free_symbols (c : Constraint) : list symbol :=
  remove_dups (free_symbols (expression c)).

(** [bool(c)], the condition [not c] being its negation. *)
Definition truthy (c : Constraint) : bool :=
  match evaluate (expression c) with
  | IsFalse => false
  | _ => true
  end.

(** *** The two constraint generators of the notebook *)

Definition rows : list symbol := symbols "X" 2.
Definition col_diff : symbol := Symbol "Y".

Definition diffRow : Constraint :=
  constraint "diffRow" (Ne (Sym (rows !!! 0%nat)) (Sym (rows !!! 1%nat))).

Definition diffDiag : Constraint :=
  constraint "diffDiag"
    (And (Ne (Sym (rows !!! 0%nat)) (Add (Sym (rows !!! 1%nat)) (Sym col_diff)))
         (Ne (Sym (rows !!! 0%nat)) (Sub (Sym (rows !!! 1%nat)) (Sym col_diff)))).

(** ** Python sets and dictionaries *)

(** [s.update(items)] on a set kept as a duplicate-free list. *)
Definition set_add {A} `{EqDecision A} (x : A) (s : list A) : list A :=
  if decide (x ∈ s) then s else s ++ [x].

Definition set_update {A} `{EqDecision A} (items : list A) (s : list A) : list A :=
  foldl (λ acc x, set_add x acc) s items.

(** [len(d)] *)
Definition len (d : gmap symbol Z) : Z := Z.of_nat (size d).

(** [del d[k]] raises [KeyError] when [k] is not bound. *)
Definition del (k : symbol) (d : gmap symbol Z) : result (gmap symbol Z) :=
  match d !! k with
  | Some _ => inr (delete k d)
  | None => inl KeyError
  end.

(** [for k in ks: del d[k]] *)
Fixpoint del_all (ks : list symbol) (d : gmap symbol Z) : result (gmap symbol Z) :=
  match ks with
  | [] => inr d
  | k :: ks' =>
      match del k d with
      | inl e => inl e
      | inr d' => del_all ks' d'
      end
  end.

(** [d.update(other)]: the bindings of [other] win. *)
Definition update (other d : gmap symbol Z) : gmap symbol Z := other ∪ d.

(** [d.keys()] *)
Definition keys (d : gmap symbol Z) : list symbol := (map_to_list d).*1.

(** ** The N-Queens CSP class *)

Module NQueensCSP.

Record t : Type := Build {
  size : Z;
  variables : list symbol;
  domains : gmap symbol (list Z);
  _constraints : gmap symbol (list Constraint)
}.

(** The body of the inner loop of [__init__] for one pair [i < j]. The
    variables [xi] and [xj] are keys of the constraint dictionary, which
    was initialised on all of [_vars], so the two dictionary accesses
    cannot fail. *)
Definition add_pair (_vars : list symbol) (i : nat)
    (cs : gmap symbol (list Constraint)) (j : nat) : gmap symbol (list Constraint) :=
  let xi := _vars !!! i in
  let xj := _vars !!! j in
  let diffRow_constraint :=
    subs (<[rows !!! 0%nat := Sym xi]> (<[rows !!! 1%nat := Sym xj]> ∅)) diffRow in
  let diffDiag_constraint :=
    subs (<[rows !!! 0%nat := Sym xi]> (<[rows !!! 1%nat := Sym xj]>
           (<[col_diff := Int (Z.of_nat j - Z.of_nat i)]> ∅))) diffDiag in
  let cs := alter (set_update [diffRow_constraint; diffDiag_constraint]) xi cs in
  alter (set_update [diffRow_constraint; diffDiag_constraint]) xj cs.

(** [for i in range(N): for j in [j for j in range(N) if i < j]: ...] *)
Definition add_constraints (n : nat) (_vars : list symbol)
    (cs : gmap symbol (list Constraint)) : gmap symbol (list Constraint) :=
  foldl (λ cs i,
           foldl (add_pair _vars i) cs
                 (filter (λ j, (i < j)%nat) (seq 0 n)))
        cs (seq 0 n).

(** [NQueensCSP(N)]. The range string ['A:%d' % N] is only well formed
    for a non-negative [N]: sympy's [symbols] raises [ValueError] on a
    negative upper bound. [range(N)] is empty for [N <= 0]. The domain,
    a set of small integers, is enumerated in increasing order. *)
Definition __init__ (N : Z) : result t :=
  if decide (N < 0) then inl ValueError
  else
    let n := Z.to_nat N in
    let _vars := symbols "A" n in
    let _domain := Z.of_nat <$> seq 0 n in
    let doms : gmap symbol (list Z) := list_to_map ((λ v, (v, _domain)) <$> _vars) in
    let cons : gmap symbol (list Constraint) := list_to_map ((λ x, (x, [])) <$> _vars) in
    inr {| size := N;
           variables := _vars;
           domains := doms;
           _constraints := add_constraints n _vars cons |}.

(** The read-only property [constraints]: the union of all entries. *)
Definition constraints (self : t) : list Constraint :=
  map_fold (λ _ _cons acc, set_update _cons acc) [] (_constraints self).

Definition is_complete (self : t) (assignment : gmap symbol Z) : bool :=
  bool_decide (len assignment = size self).

(** The loop of [is_consistent] over the constraints of [var]. *)
Fixpoint check_constraints (cs : list Constraint) (var : symbol) (value : Z)
    (assignment : gmap symbol Z) : bool :=
  match cs with
  | [] => true
  | c :: cs' =>
      let assignment_constraint := subs {[var := Int value]} c in
      let assignment_constraint := subs (Int <$> assignment) assignment_constraint in
      if negb (truthy assignment_constraint) then false
      else check_constraints cs' var value assignment
  end.

Definition is_consistent (self : t) (var : symbol) (value : Z)
    (assignment : gmap symbol Z) : result bool :=
  match _constraints self !! var with
  | None => inl KeyError
  | Some cs => inr (check_constraints cs var value assignment)
  end.

(** The default inference: the empty dictionary. *)
Definition inference (self : t) (var : symbol) (value : Z) : option (gmap symbol Z) :=
  Some ∅.

End NQueensCSP.

(** ** The interface the search expects of a CSP

    [backtrack] uses [csp.variables], [csp.domains], [csp.inference()],
    [csp.is_consistent()] and [csp.is_complete()]. [inference] returns a
    dictionary of inferred bindings, or [None] to signal failure. *)
Class CSP (C : Type) : Type := {
  variables : C → list symbol;
  domains : C → gmap symbol (list Z);
  is_complete : C → gmap symbol Z → bool;
  is_consistent : C → symbol → Z → gmap symbol Z → result bool;
  inference : C → symbol → Z → option (gmap symbol Z)
}.

Global Instance NQueensCSP_CSP : CSP NQueensCSP.t := {|
  variables := NQueensCSP.variables;
  domains := NQueensCSP.domains;
  is_complete := NQueensCSP.is_complete;
  is_consistent := NQueensCSP.is_consistent;
  inference := NQueensCSP.inference
|}.

(** ** Backtracking search *)

(** What a call of [backtrack] does: it returns the assignment dictionary
    (whose contents are then [a]), returns [None] (leaving the dictionary
    with contents [a]), or raises. [OutOfFuel] marks a recursion deeper
    than the depth the model was given. *)
Inductive outcome : Type :=
| Return (a : gmap symbol Z)
| ReturnNone (a : gmap symbol Z)
| Raise (e : exn)
| OutOfFuel.

Global Instance outcome_eq_dec : EqDecision outcome.
Proof. solve_decision. Defined.

Section search.
Context {C : Type} `{CSP C}.

(** The first variable of [csp.variables] that is not in the assignment. *)
Fixpoint select_from (vars : list symbol) (assignment : gmap symbol Z) : option symbol :=
  match vars with
  | [] => None
  | var :: vars' =>
      match assignment !! var with
      | None => Some var
      | Some _ => select_from vars' assignment
      end
  end.

Definition select (csp : C) (assignment : gmap symbol Z) : option symbol :=
  select_from (variables csp) assignment.

(** [csp.domains[var]]; [var] is [None] when [select] found nothing. *)
Definition order_values (var : option symbol) (assignment : gmap symbol Z) (csp : C)
    : result (list Z) :=
  match var with
  | None => inl KeyError
  | Some v =>
      match domains csp !! v with
      | None => inl KeyError
      | Some d => inr d
      end
  end.

(** The statements after the [if inferences is not None] block:
    [del assignment[var]], then the loop over [inferences.keys()]. *)
Definition undo (var : symbol) (inferences : option (gmap symbol Z))
    (assignment : gmap symbol Z) : result (gmap symbol Z) :=
  match del var assignment with
  | inl e => inl e
  | inr assignment =>
      match inferences with
      | None => inl AttributeError
      | Some inf => del_all (keys inf) assignment
      end
  end.

(** The [for val in ...] loop of [backtrack]; [rec] is the recursive call.
    For a consistent value the loop binds [var], asks for inferences and,
    unless they are [None], merges them and recurses. A result that is a
    non-empty dictionary is returned; otherwise ([None], an empty
    dictionary, or no recursion at all) control reaches [undo], and the
    loop goes on with the next value. *)
Fixpoint for_values (rec : gmap symbol Z → outcome) (csp : C) (var : symbol)
    (vals : list Z) (assignment : gmap symbol Z) : outcome :=
  match vals with
  | [] => ReturnNone assignment
  | val :: vals' =>
      match is_consistent csp var val assignment with
      | inl e => Raise e
      | inr false => for_values rec csp var vals' assignment
      | inr true =>
          let assignment := <[var := val]> assignment in
          let inferences := inference csp var val in
          let undo_and_continue (assignment : gmap symbol Z) :=
            match undo var inferences assignment with
            | inl e => Raise e
            | inr assignment => for_values rec csp var vals' assignment
            end in
          match inferences with
          | Some inf =>
              match rec (update inf assignment) with
              | Return result =>
                  if decide (result = ∅) then undo_and_continue result
                  else Return result
              | ReturnNone assignment => undo_and_continue assignment
              | Raise e => Raise e
              | OutOfFuel => OutOfFuel
              end
          | None => undo_and_continue assignment
          end
      end
  end.

Definition backtrack_body (rec : gmap symbol Z → outcome) (assignment : gmap symbol Z)
    (csp : C) : outcome :=
  if is_complete csp assignment then Return assignment
  else
    let var := select csp assignment in
    match order_values var assignment csp, var with
    | inr vals, Some var => for_values rec csp var vals assignment
    | inl e, _ => Raise e
    | inr _, None => Raise KeyError
    end.

(** [backtrack(assignment, csp)], with at most [depth] nested activations.
    The recursion limit of the Python interpreter is not modelled. *)
Fixpoint backtrack (depth : nat) (assignment : gmap symbol Z) (csp : C) : outcome :=
  match depth with
  | O => OutOfFuel
  | S depth' => backtrack_body (λ a, backtrack depth' a csp) assignment csp
  end.

Definition backtracking_search (depth : nat) (csp : C) : outcome :=
  backtrack depth ∅ csp.

End search.

(** The notebook's driver cell: build the model, then search. *)
Definition solve (depth : nat) (num_queens : Z) : outcome :=
  match NQueensCSP.__init__ num_queens with
  | inl e => Raise e
  | inr csp => backtracking_search depth csp
  end.

(** * Vocabulary of the statements *)

(** The [i]-th variable of the model, [A<i>]. *)
Definition A (i : nat) : symbol := Symbol ("A" +:+ pretty i).

(** [diffRow.subs({rows[0]: xi, rows[1]: xj})] *)
Definition diffRow_on (xi xj : symbol) : Constraint :=
  constraint "diffRow" (Ne (Sym xi) (Sym xj)).

(** [diffDiag.subs({rows[0]: xi, rows[1]: xj, col_diff: d})] *)
Definition diffDiag_on (xi xj : symbol) (d : Z) : Constraint :=
  constraint "diffDiag"
    (And (Ne (Sym xi) (Add (Sym xj) (Int d))) (Ne (Sym xi) (Sub (Sym xj) (Int d)))).

(** [grows_by R cs cs']: the dictionary [cs'] has the keys of [cs], and the
    entry of each key [v] gained exactly the constraints [c] with [R v c]. *)
Definition grows_by (R : symbol → Constraint → Prop)
    (cs cs' : gmap symbol (list Constraint)) : Prop :=
  ∀ v, match cs !! v, cs' !! v with
       | Some l, Some l' => (NoDup l → NoDup l') ∧ ∀ c, c ∈ l' ↔ c ∈ l ∨ R v c
       | None, None => True
       | _, _ => False
       end.

(** The two constraints generated for the pair of columns [i < j]. *)
Definition pair_constraints (_vars : list symbol) (i j : nat) : list Constraint :=
  [diffRow_on (_vars !!! i) (_vars !!! j);
   diffDiag_on (_vars !!! i) (_vars !!! j) (Z.of_nat j - Z.of_nat i)].

(** The model [NQueensCSP(n)] for a natural number [n]. *)
Definition model (n : nat) : NQueensCSP.t :=
  {| NQueensCSP.size := Z.of_nat n;
     NQueensCSP.variables := symbols "A" n;
     NQueensCSP.domains :=
       list_to_map ((λ v, (v, Z.of_nat <$> seq 0 n)) <$> symbols "A" n);
     NQueensCSP._constraints :=
       NQueensCSP.add_constraints n (symbols "A" n)
         (list_to_map ((λ x, (x, [])) <$> symbols "A" n)) |}.

(** Queens in columns [i] and [j], on rows [vi] and [vj], do not attack
    each other: different rows and different diagonals. *)
Definition no_attack (i : nat) (vi : Z) (j : nat) (vj : Z) : Prop :=
  vi ≠ vj ∧ Z.abs (vi - vj) ≠ Z.abs (Z.of_nat i - Z.of_nat j).

Global Instance no_attack_dec i vi j vj : Decision (no_attack i vi j vj).
Proof. unfold no_attack. apply _. Defined.

(** The constraint [c] after [c.subs(var, value)] and [.subs(assignment)]. *)
Definition substituted (var : symbol) (value : Z) (assignment : gmap symbol Z)
    (c : Constraint) : Constraint :=
  subs (Int <$> assignment) (subs {[var := Int value]} c).

(** The assignment binds exactly the first [k] columns, to rows of the
    board, and no two of the placed queens attack each other. *)
Definition placed (n k : nat) (a : gmap symbol Z) : Prop :=
  (∀ s, is_Some (a !! s) ↔ ∃ i, (i < k)%nat ∧ s = A i) ∧
  size a = k ∧
  (∀ i w, a !! A i = Some w → 0 ≤ w < Z.of_nat n) ∧
  (∀ i j wi wj, i ≠ j → a !! A i = Some wi → a !! A j = Some wj → no_attack i wi j wj).

(** A full valid placement of [N] queens: exactly the variables of the
    model are bound, to rows of the board, and no two queens attack each
    other. *)
Definition is_solution (N : Z) (assignment : gmap symbol Z) : Prop :=
  (∀ v, is_Some (assignment !! v) ↔ ∃ i : nat, Z.of_nat i < N ∧ v = A i) ∧
  (∀ v w, assignment !! v = Some w → 0 ≤ w < N) ∧
  (∀ (i j : nat) (wi wj : Z),
     i ≠ j → assignment !! A i = Some wi → assignment !! A j = Some wj →
     no_attack i wi j wj).

(** The precondition on an inference hook: whenever the search, on an
    assignment that satisfies [I], asks the hook about a consistent value
    of the domain of the variable that [select] picked, the hook proposes
    bindings only for variables that are not bound yet, and the extended
    assignment satisfies [I] again. *)
Definition proposes_unbound {C : Type} `{CSP C} (csp : C)
    (I : gmap symbol Z → Prop) : Prop :=
  ∀ a var vals val inf,
    I a →
    is_complete csp a = false →
    select csp a = Some var →
    domains csp !! var = Some vals → val ∈ vals →
    is_consistent csp var val a = inr true →
    inference csp var val = Some inf →
    (∀ k, is_Some (inf !! k) → k ≠ var ∧ a !! k = None) ∧
    I (update inf (<[var := val]> a)).

(** The model with [inference] overridden to return [None], the failure
    signal that the docstring of [NQueensCSP.inference] describes. *)
Record DeadEndCSP : Type := dead_end { base : NQueensCSP.t }.

Global Instance DeadEndCSP_CSP : CSP DeadEndCSP := {|
  variables c := NQueensCSP.variables (base c);
  domains c := NQueensCSP.domains (base c);
  is_complete c := NQueensCSP.is_complete (base c);
  is_consistent c := NQueensCSP.is_consistent (base c);
  inference _ _ _ := None
|}.

(** The model with [inference] overridden by a hook of the caller's. *)
Record HookedCSP : Type := with_inference {
  hooked_base : NQueensCSP.t;
  hook : symbol → Z → option (gmap symbol Z)
}.

Global Instance HookedCSP_CSP : CSP HookedCSP := {|
  variables c := NQueensCSP.variables (hooked_base c);
  domains c := NQueensCSP.domains (hooked_base c);
  is_complete c := NQueensCSP.is_complete (hooked_base c);
  is_consistent c := NQueensCSP.is_consistent (hooked_base c);
  inference c := hook c
|}.

(** A hook that always infers a row for the first column, whether or not
    that column is bound already. *)
Definition rebinding (n : nat) : HookedCSP :=
  with_inference (model n) (λ _ _, Some {[A 0 := 0]}).

(** A hook that records the row chosen for a variable under a second
    symbol, named after the variable, which the model does not use. *)
Definition shadowing (n : nat) : HookedCSP :=
  with_inference (model n) (λ var val, Some {[Symbol ("I" +:+ var) := val]}).

(** No shadow symbol is bound unless its variable is. *)
Definition shadows_bound (a : gmap symbol Z) : Prop :=
  ∀ s, is_Some (a !! Symbol ("I" +:+ s)) → is_Some (a !! s).

(** ** Vocabulary of the further properties *)

(** [NQueensCSP.show]: the list [locations] that it hands, with
    [self.size], to [displayBoard]; the drawing itself is done by
    [util.displayBoard]. *)
Definition show_locations (self : NQueensCSP.t) (assignment : gmap symbol Z)
    : list (nat * Z) :=
  omap (λ ij : nat * symbol, (λ w, (ij.1, w)) <$> assignment !! ij.2)
       (imap (λ i j, (i, j)) (NQueensCSP.variables self)).

Definition show (self : NQueensCSP.t) (assignment : gmap symbol Z)
    : list (nat * Z) * Z :=
  (show_locations self assignment, NQueensCSP.size self).

(** The number of variables of the CSP that the assignment leaves unbound. *)
Definition unbound {C : Type} `{CSP C} (csp : C) (assignment : gmap symbol Z) : nat :=
  length (filter (λ v, assignment !! v = None) (variables csp)).

(** The returned placement is the first one in the order of the search:
    at the first column where another full placement that extends [a]
    differs from it, the returned one has the smaller row. *)
Definition first_from (n : nat) (a r : gmap symbol Z) : Prop :=
  ∀ s, placed n n s → a ⊆ s →
       ∀ i w w', (∀ j, (j < i)%nat → r !! A j = s !! A j) →
                 r !! A i = Some w → s !! A i = Some w' → w ≤ w'.

(** The columns other than [k]. *)
Definition others (n k : nat) : list nat := seq 0 k ++ seq (S k) (n - S k).

(** The row constraint between the columns [k] and [j], generated for the
    pair with the smaller column first. *)
Definition row_with (k j : nat) : Constraint :=
  diffRow_on (A (k `min` j)) (A (k `max` j)).

(** The diagonal constraint of the same pair, with its column distance. *)
Definition diag_with (k j : nat) : Constraint :=
  diffDiag_on (A (k `min` j)) (A (k `max` j))
              (Z.of_nat (k `max` j) - Z.of_nat (k `min` j)).

(** The pairs of columns [i < j < n]. *)
Definition column_pairs (n : nat) : list (nat * nat) :=
  seq 0 n ≫= λ j, (λ i, (i, j)) <$> seq 0 j.

(** * Properties *)

(** ** Symbols *)

Lemma symbols_A n : symbols "A" n = A <$> seq 0 n.
Proof. reflexivity. Qed.

Global Instance A_inj : Inj (=) (=) A.
Proof.
  intros i j Hij. unfold A, Symbol in Hij.
  simpl in Hij. injection Hij as Hij. by apply (inj pretty).
Qed.

Lemma elem_of_symbols_A n v : v ∈ symbols "A" n ↔ ∃ i, (i < n)%nat ∧ v = A i.
Proof.
  rewrite symbols_A, list_elem_of_fmap. split.
  - intros (i & -> & Hi). apply elem_of_seq in Hi. exists i. split; [lia|done].
  - intros (i & Hi & ->). exists i. split; [done|]. apply elem_of_seq. lia.
Qed.

Lemma lookup_total_symbols_A n i : (i < n)%nat → symbols "A" n !!! i = A i.
Proof.
  intros Hi. apply list_lookup_total_correct.
  rewrite symbols_A, list_lookup_fmap, lookup_seq_lt by done. done.
Qed.

Lemma NoDup_symbols_A n : NoDup (symbols "A" n).
Proof. rewrite symbols_A. apply NoDup_fmap_2; [apply _|apply NoDup_seq]. Qed.

Lemma length_symbols_A n : length (symbols "A" n) = n.
Proof. rewrite symbols_A, length_fmap. apply length_seq. Qed.

(** ** The instantiated constraints *)

Lemma subs_diffRow xi xj :
  subs (<[rows !!! 0%nat := Sym xi]> (<[rows !!! 1%nat := Sym xj]> ∅)) diffRow
  = diffRow_on xi xj.
Proof. vm_compute. reflexivity. Qed.

Lemma subs_diffDiag xi xj d :
  subs (<[rows !!! 0%nat := Sym xi]> (<[rows !!! 1%nat := Sym xj]>
          (<[col_diff := Int d]> ∅))) diffDiag
  = diffDiag_on xi xj d.
Proof. vm_compute. reflexivity. Qed.

(** The checks of the notebook's test cell hold in the model. *)
Example diffRow_tests :
  let _x := symbols "x" 3 in
  let diffRow_test :=
    subs (<[rows !!! 0%nat := Sym (_x !!! 0%nat)]>
            (<[rows !!! 1%nat := Sym (_x !!! 1%nat)]> ∅)) diffRow in
  length (constraint_free_symbols diffRow_test) = 2%nat ∧
  evaluate (expression (subs (<[_x !!! 0%nat := Int 0]> (<[_x !!! 1%nat := Int 1]> ∅))
                             diffRow_test)) = IsTrue ∧
  evaluate (expression (subs (<[_x !!! 0%nat := Int 0]> (<[_x !!! 1%nat := Int 0]> ∅))
                             diffRow_test)) = IsFalse ∧
  evaluate (expression (subs {[_x !!! 0%nat := Int 0]} diffRow_test)) ≠ IsFalse.
Proof. vm_compute. split_and!; done. Qed.

Example diffDiag_tests :
  let _x := symbols "x" 3 in
  let diffDiag_test :=
    subs (<[rows !!! 0%nat := Sym (_x !!! 0%nat)]>
            (<[rows !!! 1%nat := Sym (_x !!! 2%nat)]>
               (<[col_diff := Int 2]> ∅))) diffDiag in
  length (constraint_free_symbols diffDiag_test) = 2%nat ∧
  evaluate (expression (subs (<[_x !!! 0%nat := Int 0]> (<[_x !!! 2%nat := Int 2]> ∅))
                             diffDiag_test)) = IsFalse ∧
  evaluate (expression (subs (<[_x !!! 0%nat := Int 0]> (<[_x !!! 2%nat := Int 0]> ∅))
                             diffDiag_test)) = IsTrue ∧
  evaluate (expression (subs {[_x !!! 0%nat := Int 0]} diffDiag_test)) ≠ IsFalse.
Proof. vm_compute. split_and!; done. Qed.

(** ** Sets as duplicate-free lists *)

Section set_as_list.
Context {T : Type} `{EqDecision T}.
Implicit Types (x y : T) (s items : list T).

Lemma elem_of_set_add x y s : y ∈ set_add x s ↔ y ∈ s ∨ y = x.
Proof.
  unfold set_add. case_decide as Hx.
  - split; [auto|]. intros [?| ->]; done.
  - rewrite elem_of_app, list_elem_of_singleton. done.
Qed.

Lemma NoDup_set_add x s : NoDup s → NoDup (set_add x s).
Proof.
  intros Hs. unfold set_add. case_decide as Hx; [done|].
  apply NoDup_app. split_and!; [done| |apply NoDup_singleton].
  intros y Hy Hy'. apply list_elem_of_singleton in Hy'. by subst.
Qed.

Lemma elem_of_set_update items s y : y ∈ set_update items s ↔ y ∈ s ∨ y ∈ items.
Proof.
  unfold set_update. revert s. induction items as [|x items IH]; intros s; simpl.
  - rewrite elem_of_nil. tauto.
  - rewrite IH, elem_of_set_add, elem_of_cons. tauto.
Qed.

Lemma NoDup_set_update items s : NoDup s → NoDup (set_update items s).
Proof.
  unfold set_update. revert s. induction items as [|x items IH]; intros s Hs; simpl.
  - done.
  - by apply IH, NoDup_set_add.
Qed.

End set_as_list.

(** ** The constraint index built by [__init__] *)

Lemma grows_by_refl cs : grows_by (λ _ _, False) cs cs.
Proof. intros v. destruct (cs !! v); [|done]. split; [done|]. tauto. Qed.

Lemma grows_by_trans R1 R2 cs cs' cs'' :
  grows_by R1 cs cs' → grows_by R2 cs' cs'' →
  grows_by (λ v c, R1 v c ∨ R2 v c) cs cs''.
Proof.
  intros H1 H2 v. specialize (H1 v). specialize (H2 v).
  destruct (cs !! v), (cs' !! v), (cs'' !! v); try done.
  destruct H1 as [N1 E1], H2 as [N2 E2]. split; [auto|].
  intros c. rewrite E2, E1. tauto.
Qed.

Lemma grows_by_weaken (R R' : symbol → Constraint → Prop) cs cs' :
  (∀ v c, R v c ↔ R' v c) → grows_by R cs cs' → grows_by R' cs cs'.
Proof.
  intros HR H1 v. specialize (H1 v).
  destruct (cs !! v), (cs' !! v); try done.
  destruct H1 as [N1 E1]. split; [done|]. intros c. by rewrite E1, HR.
Qed.

Lemma grows_by_alter items x cs :
  grows_by (λ v c, v = x ∧ c ∈ items) cs (alter (set_update items) x cs).
Proof.
  intros v. rewrite lookup_alter. case_decide as Hv.
  - subst v. destruct (cs !! x) as [l|]; simpl; [|done]. split.
    + apply NoDup_set_update.
    + intros c. rewrite elem_of_set_update. split; [intros [?|?]; auto|].
      intros [?|[_ ?]]; auto.
  - destruct (cs !! v); [|done]. split; [done|]. intros c. split; [auto|].
    intros [?|[? _]]; done.
Qed.

Lemma grows_by_foldl {B} (f : gmap symbol (list Constraint) → B → gmap symbol (list Constraint))
    (R : B → symbol → Constraint → Prop) :
  (∀ cs b, grows_by (R b) cs (f cs b)) →
  ∀ bs cs, grows_by (λ v c, ∃ b, b ∈ bs ∧ R b v c) cs (foldl f cs bs).
Proof.
  intros Hf bs. induction bs as [|b bs IH]; intros cs; simpl.
  - eapply grows_by_weaken; [|apply grows_by_refl].
    intros v c. split; [done|]. intros (b & Hb & _). by apply elem_of_nil in Hb.
  - eapply grows_by_weaken; [|eapply grows_by_trans; [apply Hf|apply IH]].
    intros v c. simpl. split.
    + intros [?|(b' & ? & ?)]; [exists b|exists b']; split; try done.
      * apply elem_of_cons; auto.
      * apply elem_of_cons; auto.
    + intros (b' & [->|Hb']%elem_of_cons & ?); [by left|right; eauto].
Qed.

Lemma add_pair_grows _vars i cs j :
  grows_by (λ v c, (v = _vars !!! i ∨ v = _vars !!! j) ∧ c ∈ pair_constraints _vars i j)
           cs (NQueensCSP.add_pair _vars i cs j).
Proof.
  unfold NQueensCSP.add_pair. rewrite subs_diffRow, subs_diffDiag.
  eapply grows_by_weaken; [|eapply grows_by_trans; apply grows_by_alter].
  intros v c. simpl. unfold pair_constraints. tauto.
Qed.

Lemma add_constraints_grows n _vars cs :
  grows_by (λ v c, ∃ i j, (i < j < n)%nat ∧ (v = _vars !!! i ∨ v = _vars !!! j) ∧
                          c ∈ pair_constraints _vars i j)
           cs (NQueensCSP.add_constraints n _vars cs).
Proof.
  unfold NQueensCSP.add_constraints.
  eapply grows_by_weaken; [|apply (grows_by_foldl _
    (λ i v c, ∃ j, j ∈ filter (λ j, (i < j)%nat) (seq 0 n) ∧
                   (v = _vars !!! i ∨ v = _vars !!! j) ∧ c ∈ pair_constraints _vars i j))].
  - intros v c. split.
    + intros (i & Hi & j & Hj & H). exists i, j.
      apply list_elem_of_filter in Hj as [Hij Hj]. apply elem_of_seq in Hj.
      split; [lia|done].
    + intros (i & j & Hij & H). exists i. split; [apply elem_of_seq; lia|].
      exists j. split; [|done]. apply list_elem_of_filter. split; [lia|].
      apply elem_of_seq; lia.
  - intros cs' i.
    apply (grows_by_foldl (NQueensCSP.add_pair _vars i)
             (λ j v c, (v = _vars !!! i ∨ v = _vars !!! j) ∧ c ∈ pair_constraints _vars i j)).
    intros cs'' j. apply add_pair_grows.
Qed.

Lemma lookup_list_to_map_const {V} (l : list symbol) (c : V) (v : symbol) :
  (list_to_map ((λ x, (x, c)) <$> l) : gmap symbol V) !! v
  = if decide (v ∈ l) then Some c else None.
Proof.
  induction l as [|x l IH].
  - done.
  - change (list_to_map ((λ x, (x, c)) <$> x :: l) : gmap symbol V)
      with (<[x := c]> (list_to_map ((λ x, (x, c)) <$> l) : gmap symbol V)).
    destruct (decide (x = v)) as [->|Hne].
    + rewrite lookup_insert_eq. by rewrite decide_True by apply list_elem_of_here.
    + rewrite lookup_insert_ne, IH by done.
      destruct (decide (v ∈ l)) as [Hl|Hl], (decide (v ∈ x :: l)) as [Hxl|Hxl]; try done.
      * destruct Hxl. by apply list_elem_of_further.
      * apply elem_of_cons in Hxl as [->|?]; done.
Qed.

Lemma init_inr N csp :
  NQueensCSP.__init__ N = inr csp ↔ 0 ≤ N ∧ csp = model (Z.to_nat N).
Proof.
  unfold NQueensCSP.__init__, model. case_decide as HN.
  - split; [done|]. intros [? _]. lia.
  - rewrite Z2Nat.id by lia. split.
    + intros [= <-]. split; [lia|done].
    + by intros [_ ->].
Qed.

Lemma init_inl N e : NQueensCSP.__init__ N = inl e ↔ N < 0 ∧ e = ValueError.
Proof.
  unfold NQueensCSP.__init__. case_decide as HN.
  - split; [by intros [= <-]|by intros [_ ->]].
  - split; [done|]. intros [? _]. lia.
Qed.

Lemma model_constraints_Some n k :
  (k < n)%nat →
  ∃ l, NQueensCSP._constraints (model n) !! A k = Some l ∧ NoDup l ∧
       ∀ c, c ∈ l ↔ ∃ i j, (i < j < n)%nat ∧ (k = i ∨ k = j) ∧
                           (c = diffRow_on (A i) (A j) ∨
                            c = diffDiag_on (A i) (A j) (Z.of_nat j - Z.of_nat i)).
Proof.
  intros Hk. simpl.
  pose proof (add_constraints_grows n (symbols "A" n)
                (list_to_map ((λ x, (x, [])) <$> symbols "A" n)) (A k)) as H.
  rewrite lookup_list_to_map_const in H.
  rewrite decide_True in H by (apply elem_of_symbols_A; eauto).
  destruct (NQueensCSP.add_constraints _ _ _ !! A k) as [l|]; [|done].
  destruct H as [Hnd Hl]. exists l. split_and!; [done|apply Hnd, NoDup_nil_2|].
  intros c. rewrite Hl. split.
  - intros [[]%elem_of_nil|(i & j & Hij & Hv & Hc)]. exists i, j.
    unfold pair_constraints in Hc.
    rewrite !lookup_total_symbols_A in Hv, Hc by lia.
    split; [lia|split].
    + destruct Hv as [Hv|Hv]; apply (inj A) in Hv; auto.
    + rewrite !elem_of_cons in Hc. destruct Hc as [?|[?|[]%elem_of_nil]]; auto.
  - intros (i & j & Hij & Hv & Hc). right. exists i, j.
    unfold pair_constraints. rewrite !lookup_total_symbols_A by lia.
    split; [lia|split].
    + destruct Hv as [->| ->]; auto.
    + rewrite !elem_of_cons. tauto.
Qed.

Lemma model_constraints_None n v :
  v ∉ symbols "A" n → NQueensCSP._constraints (model n) !! v = None.
Proof.
  intros Hv. simpl.
  pose proof (add_constraints_grows n (symbols "A" n)
                (list_to_map ((λ x, (x, [])) <$> symbols "A" n)) v) as H.
  rewrite lookup_list_to_map_const, decide_False in H by done.
  by destruct (NQueensCSP.add_constraints _ _ _ !! v).
Qed.

Lemma model_domains n v :
  NQueensCSP.domains (model n) !! v
  = if decide (v ∈ symbols "A" n) then Some (Z.of_nat <$> seq 0 n) else None.
Proof. apply lookup_list_to_map_const. Qed.

(** ** Consistency checking *)

Lemma check_constraints_true cs var value a :
  NQueensCSP.check_constraints cs var value a = true ↔
  ∀ c, c ∈ cs → truthy (substituted var value a c) = true.
Proof.
  induction cs as [|c cs IH]; simpl.
  - split; [|done]. intros _ c []%elem_of_nil.
  - fold (substituted var value a c).
    destruct (truthy (substituted var value a c)) eqn:Hc; simpl.
    + rewrite IH. split.
      * intros Hcs c' [->|?]%elem_of_cons; auto.
      * intros Hcs c' ?. apply Hcs. by apply list_elem_of_further.
    + split; [done|]. intros Hcs. rewrite <- Hc. apply Hcs, list_elem_of_here.
Qed.

Lemma subs_assignment_Sym (a : gmap symbol Z) s :
  subs_expr (Int <$> a) (Sym s) = match a !! s with Some w => Int w | None => Sym s end.
Proof. simpl. rewrite lookup_fmap. by destruct (a !! s). Qed.

Lemma subs_var_Sym_eq var value : subs_expr {[var := Int value]} (Sym var) = Int value.
Proof. simpl. by rewrite lookup_singleton_eq. Qed.

Lemma subs_var_Sym_ne var value s :
  var ≠ s → subs_expr {[var := Int value]} (Sym s) = Sym s.
Proof. intros. simpl. by rewrite lookup_singleton_ne. Qed.

Ltac subs_norm :=
  unfold truthy, substituted, subs, diffRow_on, diffDiag_on;
  cbn [name expression subs_bexpr];
  cbn [subs_expr]; rewrite ?lookup_singleton_eq, ?lookup_singleton_ne by done;
  cbn [default subs_expr]; rewrite ?lookup_fmap.

Ltac truthy_cases :=
  simpl; repeat case_decide; simpl;
  (split;
   [ intros ? ? ?; simplify_eq; try done; lia
   | intros Hall; try done; try (specialize (Hall _ eq_refl); lia) ]).

Lemma truthy_diffRow_fst a xi xj v :
  xi ≠ xj →
  truthy (substituted xi v a (diffRow_on xi xj)) = true ↔ ∀ w, a !! xj = Some w → v ≠ w.
Proof. intros Hne. subs_norm. destruct (a !! xj) as [w|]; truthy_cases. Qed.

Lemma truthy_diffRow_snd a xi xj v :
  xi ≠ xj →
  truthy (substituted xj v a (diffRow_on xi xj)) = true ↔ ∀ w, a !! xi = Some w → w ≠ v.
Proof. intros Hne. subs_norm. destruct (a !! xi) as [w|]; truthy_cases. Qed.

Lemma truthy_diffDiag_fst a xi xj d v :
  xi ≠ xj →
  truthy (substituted xi v a (diffDiag_on xi xj d)) = true ↔
  ∀ w, a !! xj = Some w → v ≠ w + d ∧ v ≠ w - d.
Proof. intros Hne. subs_norm. destruct (a !! xj) as [w|]; truthy_cases. Qed.

Lemma truthy_diffDiag_snd a xi xj d v :
  xi ≠ xj →
  truthy (substituted xj v a (diffDiag_on xi xj d)) = true ↔
  ∀ w, a !! xi = Some w → w ≠ v + d ∧ w ≠ v - d.
Proof. intros Hne. subs_norm. destruct (a !! xi) as [w|]; truthy_cases. Qed.

Lemma A_ne i j : i ≠ j → A i ≠ A j.
Proof. intros Hij HA. by apply (inj A) in HA. Qed.

Lemma is_consistent_model n k v a :
  (k < n)%nat →
  ∃ b, NQueensCSP.is_consistent (model n) (A k) v a = inr b ∧
       (b = true ↔
        ∀ j w, (j < n)%nat → j ≠ k → a !! A j = Some w → no_attack k v j w).
Proof.
  intros Hk. destruct (model_constraints_Some n k Hk) as (l & Hl & _ & Hin).
  unfold NQueensCSP.is_consistent. rewrite Hl. eexists. split; [done|].
  rewrite check_constraints_true. unfold no_attack. split.
  - intros Hall j w Hj Hjk Hw. destruct (decide (k < j)%nat) as [Hlt|Hge].
    + assert (A k ≠ A j) as Hne by (apply A_ne; lia).
      pose proof (Hall (diffRow_on (A k) (A j))) as H1.
      pose proof (Hall (diffDiag_on (A k) (A j) (Z.of_nat j - Z.of_nat k))) as H2.
      rewrite truthy_diffRow_fst in H1 by done.
      rewrite truthy_diffDiag_fst in H2 by done.
      specialize (H1 ltac:(apply Hin; exists k, j; split_and?; auto; lia) w Hw).
      specialize (H2 ltac:(apply Hin; exists k, j; split_and?; auto; lia) w Hw).
      lia.
    + assert (A j ≠ A k) as Hne by (apply A_ne; lia).
      pose proof (Hall (diffRow_on (A j) (A k))) as H1.
      pose proof (Hall (diffDiag_on (A j) (A k) (Z.of_nat k - Z.of_nat j))) as H2.
      rewrite truthy_diffRow_snd in H1 by done.
      rewrite truthy_diffDiag_snd in H2 by done.
      specialize (H1 ltac:(apply Hin; exists j, k; split_and?; auto; lia) w Hw).
      specialize (H2 ltac:(apply Hin; exists j, k; split_and?; auto; lia) w Hw).
      lia.
  - intros Hall c (i & j & Hij & Hk' & Hc)%Hin.
    destruct Hk' as [<- | <-], Hc as [-> | ->].
    + rewrite truthy_diffRow_fst by (apply A_ne; lia).
      intros w Hw. specialize (Hall j w ltac:(lia) ltac:(lia) Hw). lia.
    + rewrite truthy_diffDiag_fst by (apply A_ne; lia).
      intros w Hw. specialize (Hall j w ltac:(lia) ltac:(lia) Hw). lia.
    + rewrite truthy_diffRow_snd by (apply A_ne; lia).
      intros w Hw. specialize (Hall i w ltac:(lia) ltac:(lia) Hw). lia.
    + rewrite truthy_diffDiag_snd by (apply A_ne; lia).
      intros w Hw. specialize (Hall i w ltac:(lia) ltac:(lia) Hw). lia.
Qed.

(** ** Dictionary operations of the search *)

Lemma update_empty (a : gmap symbol Z) : update ∅ a = a.
Proof. unfold update. apply (left_id_L ∅ (∪)). Qed.

Lemma keys_empty : keys ∅ = [].
Proof. unfold keys. by rewrite map_to_list_empty. Qed.

Lemma elem_of_keys (d : gmap symbol Z) k : k ∈ keys d ↔ is_Some (d !! k).
Proof.
  unfold keys. rewrite list_elem_of_fmap. split.
  - intros ([k' w] & -> & Hkw). apply elem_of_map_to_list in Hkw. by exists w.
  - intros [w Hw]. exists (k, w). split; [done|]. by apply elem_of_map_to_list.
Qed.

Lemma NoDup_keys (d : gmap symbol Z) : NoDup (keys d).
Proof. apply NoDup_fst_map_to_list. Qed.

Lemma del_insert_fresh var val (a : gmap symbol Z) :
  a !! var = None → del var (<[var := val]> a) = inr a.
Proof.
  intros Ha. unfold del. rewrite lookup_insert_eq. by rewrite delete_insert_id.
Qed.

(** Deleting distinct keys that are all bound succeeds, and removes them. *)
Lemma del_all_bound ks (d : gmap symbol Z) :
  NoDup ks → (∀ k, k ∈ ks → is_Some (d !! k)) →
  ∃ d', del_all ks d = inr d' ∧
        ∀ x, d' !! x = if decide (x ∈ ks) then None else d !! x.
Proof.
  revert d. induction ks as [|k ks IH]; intros d Hnd Hks.
  - exists d. split; [done|]. intros x.
    by rewrite decide_False by apply not_elem_of_nil.
  - cbn [del_all]. apply NoDup_cons in Hnd as [Hk Hnd].
    destruct (Hks k (list_elem_of_here _ _)) as [w Hw].
    unfold del. rewrite Hw.
    destruct (IH (delete k d) Hnd) as (d' & -> & Hd').
    { intros k' Hk'. rewrite lookup_delete_ne by (intros ->; done).
      apply Hks. by apply list_elem_of_further. }
    exists d'. split; [done|]. intros x. rewrite Hd'.
    destruct (decide (x ∈ ks)) as [Hx|Hx].
    + by rewrite decide_True by (by apply list_elem_of_further).
    + destruct (decide (x = k)) as [->|Hxk].
      * rewrite lookup_delete_eq. by rewrite decide_True by apply list_elem_of_here.
      * rewrite lookup_delete_ne by done. rewrite decide_False; [done|].
        intros [?|?]%elem_of_cons; done.
Qed.

(** ** Selecting the next variable *)

Lemma select_from_Some vars (a : gmap symbol Z) v :
  select_from vars a = Some v → v ∈ vars ∧ a !! v = None.
Proof.
  induction vars as [|x vars IH]; simpl; [done|].
  destruct (a !! x) eqn:Hx.
  - intros [? ?]%IH. split; [by apply list_elem_of_further|done].
  - intros [= <-]. split; [apply list_elem_of_here|done].
Qed.

Lemma select_from_None vars (a : gmap symbol Z) :
  select_from vars a = None ↔ ∀ v, v ∈ vars → is_Some (a !! v).
Proof.
  induction vars as [|x vars IH]; simpl.
  - split; [|done]. intros _ v []%elem_of_nil.
  - destruct (a !! x) eqn:Hx.
    + rewrite IH. split.
      * intros Hall v [->|?]%elem_of_cons; eauto.
      * intros Hall v ?. apply Hall. by apply list_elem_of_further.
    + split; [done|]. intros Hall.
      destruct (Hall x (list_elem_of_here _ _)) as [? ?]. congruence.
Qed.

Lemma select_from_prefix n k (a : gmap symbol Z) :
  (k < n)%nat →
  (∀ i, (i < k)%nat → is_Some (a !! A i)) → a !! A k = None →
  select_from (symbols "A" n) a = Some (A k).
Proof.
  intros Hk Hlt Hnone. rewrite symbols_A.
  assert (∀ m s, (s ≤ k < s + m)%nat →
                 select_from (A <$> seq s m) a = Some (A k)) as Hgen.
  { induction m as [|m IH]; intros s Hs; [lia|]. simpl.
    destruct (decide (s = k)) as [->|Hsk].
    - by rewrite Hnone.
    - destruct (Hlt s ltac:(lia)) as [w ->]. apply IH. lia. }
  apply Hgen. lia.
Qed.

(** ** Undoing one branch *)

(** When the inferred bindings are all for variables that were not bound,
    the statements after a failed branch restore the dictionary. *)
Lemma undo_update_fresh var val inf (a : gmap symbol Z) :
  a !! var = None →
  (∀ k, is_Some (inf !! k) → k ≠ var ∧ a !! k = None) →
  undo var (Some inf) (update inf (<[var := val]> a)) = inr a.
Proof.
  intros Hvar Hfresh. unfold undo, del, update.
  assert (inf !! var = None) as Hinf.
  { destruct (inf !! var) eqn:E; [|done]. destruct (Hfresh var); eauto. done. }
  rewrite lookup_union_r, lookup_insert_eq by done.
  destruct (del_all_bound (keys inf) (delete var (inf ∪ <[var := val]> a)))
    as (d' & -> & Hd').
  - apply NoDup_keys.
  - intros k Hk%elem_of_keys. destruct (Hfresh k Hk) as [Hne _].
    rewrite lookup_delete_ne by done. destruct Hk as [w Hw].
    exists w. by apply lookup_union_Some_l.
  - f_equal. apply map_eq. intros x. rewrite Hd'. case_decide as Hx.
    + apply elem_of_keys, Hfresh in Hx as [_ ->]. done.
    + destruct (decide (x = var)) as [->|Hxv].
      * by rewrite lookup_delete_eq.
      * assert (inf !! x = None) as Hix.
        { destruct (inf !! x) eqn:E; [|done]. destruct Hx. apply elem_of_keys. eauto. }
        rewrite lookup_delete_ne by done. rewrite lookup_union_r by done.
        by rewrite lookup_insert_ne.
Qed.

(** ** Depth of the recursion *)

Section depth.
Context {C : Type} `{CSP C}.

(** A call that finished within some depth gives the same outcome with any
    larger depth. *)
Lemma for_values_mono (rec rec' : gmap symbol Z → outcome) (csp : C) var vals a o :
  (∀ a' o', rec a' = o' → o' ≠ OutOfFuel → rec' a' = o') →
  for_values rec csp var vals a = o → o ≠ OutOfFuel →
  for_values rec' csp var vals a = o.
Proof.
  intros Hrec. revert a. induction vals as [|val vals IH]; intros a; simpl; [done|].
  destruct (is_consistent csp var val a) as [e|[|]]; [done| |by apply IH].
  destruct (inference csp var val) as [inf|].
  - destruct (rec (update inf (<[var:=val]> a))) as [r|a3| |] eqn:Hr.
    + rewrite (Hrec _ _ Hr) by done. case_decide; [|done].
      destruct (undo _ _ _); [done|by apply IH].
    + rewrite (Hrec _ _ Hr) by done. destruct (undo _ _ _); [done|by apply IH].
    + by rewrite (Hrec _ _ Hr) by done.
    + by intros <-.
  - destruct (undo _ _ _); [done|by apply IH].
Qed.

Lemma backtrack_mono (csp : C) depth depth' a o :
  (depth ≤ depth')%nat →
  backtrack depth a csp = o → o ≠ OutOfFuel → backtrack depth' a csp = o.
Proof.
  revert depth' a o. induction depth as [|depth IH]; intros depth' a o Hle; simpl.
  - by intros <-.
  - destruct depth' as [|depth']; [lia|]. simpl. unfold backtrack_body.
    destruct (is_complete csp a); [done|].
    destruct (order_values _ _ _) as [e|vals]; [done|].
    destruct (select csp a) as [var|]; [|done].
    apply for_values_mono. intros a' o'. apply IH. lia.
Qed.

(** With the default inference, which infers nothing, a call that returns
    [None] leaves the dictionary as it found it. *)
Lemma for_values_restore (rec : gmap symbol Z → outcome) (csp : C) var vals a a' :
  (∀ var val, inference csp var val = Some ∅) →
  (∀ a1 a2, rec a1 = ReturnNone a2 → a2 = a1) →
  a !! var = None →
  for_values rec csp var vals a = ReturnNone a' → a' = a.
Proof.
  intros Hinf Hrec Hvar. induction vals as [|val vals IH]; simpl.
  - by intros [= <-].
  - destruct (is_consistent csp var val a) as [e|[|]]; [done| |done].
    rewrite Hinf, update_empty.
    destruct (rec (<[var:=val]> a)) as [r|a3| |] eqn:Hr; try done.
    + case_decide as Hempty; [|done]. subst r.
      unfold undo, del. by rewrite lookup_empty.
    + apply Hrec in Hr as ->. unfold undo. rewrite del_insert_fresh by done.
      by rewrite keys_empty.
Qed.

Lemma backtrack_restore (csp : C) depth a a' :
  (∀ var val, inference csp var val = Some ∅) →
  backtrack depth a csp = ReturnNone a' → a' = a.
Proof.
  intros Hinf. revert a a'. induction depth as [|depth IH]; intros a a'; simpl; [done|].
  unfold backtrack_body. destruct (is_complete csp a); [done|].
  destruct (order_values _ _ _) as [e|vals]; [done|].
  destruct (select csp a) as [var|] eqn:Hsel; [|done].
  apply select_from_Some in Hsel as [_ Hvar].
  by apply for_values_restore.
Qed.

(** The same for any inference hook that proposes only unbound variables. *)
Lemma for_values_restore_fresh (rec : gmap symbol Z → outcome) (csp : C)
    (I : gmap symbol Z → Prop) var vals a a' :
  (∀ val inf, val ∈ vals →
     is_consistent csp var val a = inr true → inference csp var val = Some inf →
     (∀ k, is_Some (inf !! k) → k ≠ var ∧ a !! k = None) ∧
     I (update inf (<[var := val]> a))) →
  (∀ a1 a2, I a1 → rec a1 = ReturnNone a2 → a2 = a1) →
  a !! var = None →
  for_values rec csp var vals a = ReturnNone a' → a' = a.
Proof.
  intros Hfresh Hrec Hvar. induction vals as [|val vals IH]; simpl.
  - by intros [= <-].
  - assert (∀ val' inf, val' ∈ vals →
              is_consistent csp var val' a = inr true →
              inference csp var val' = Some inf →
              (∀ k, is_Some (inf !! k) → k ≠ var ∧ a !! k = None) ∧
              I (update inf (<[var := val']> a))) as Hfresh'.
    { intros val' inf Hin. apply Hfresh. by apply list_elem_of_further. }
    destruct (is_consistent csp var val a) as [e|[|]] eqn:Hcons; [done| |by apply IH].
    destruct (inference csp var val) as [inf|] eqn:Hinf.
    + destruct (Hfresh val inf (list_elem_of_here _ _) Hcons Hinf) as [Hkeys HI'].
      destruct (rec (update inf (<[var:=val]> a))) as [r|a3| |] eqn:Hr; try done.
      * case_decide as Hempty; [|done]. subst r.
        unfold undo, del. by rewrite lookup_empty.
      * apply Hrec in Hr as ->; [|done].
        rewrite undo_update_fresh by done. by apply IH.
    + unfold undo, del. by rewrite lookup_insert_eq.
Qed.

Lemma backtrack_restore_fresh (csp : C) (I : gmap symbol Z → Prop) depth a a' :
  proposes_unbound csp I →
  I a → backtrack depth a csp = ReturnNone a' → a' = a.
Proof.
  intros Hfresh. revert a a'. induction depth as [|depth IH]; intros a a' HI; simpl; [done|].
  unfold backtrack_body. destruct (is_complete csp a) eqn:Hc; [done|].
  destruct (select csp a) as [var|] eqn:Hsel; [|by destruct (order_values _ _ _)].
  unfold order_values. destruct (domains csp !! var) as [vals|] eqn:Hdom; [|done].
  pose proof (select_from_Some _ _ _ Hsel) as [_ Hvar].
  apply (for_values_restore_fresh _ _ I); [|by auto|done].
  intros val inf Hin Hcons Hinf. by apply (Hfresh a var vals val inf).
Qed.

End depth.

(** ** Search on the N-Queens model *)

Lemma placed_empty n : placed n 0 ∅.
Proof.
  split_and!.
  - intros s. rewrite lookup_empty. split; [by intros [? ?]|]. intros (i & ? & _). lia.
  - apply map_size_empty.
  - intros i w. by rewrite lookup_empty.
  - intros i j wi wj _. by rewrite lookup_empty.
Qed.

Lemma no_attack_sym i vi j vj : no_attack i vi j vj → no_attack j vj i vi.
Proof. unfold no_attack. lia. Qed.

Lemma placed_None n k a : placed n k a → a !! A k = None.
Proof.
  intros (Hdom & _). destruct (a !! A k) eqn:E; [|done].
  destruct (proj1 (Hdom (A k))) as (i & Hi & HA); [eauto|].
  apply (inj A) in HA. lia.
Qed.

Lemma placed_insert n k a val :
  placed n k a → 0 ≤ val < Z.of_nat n →
  (∀ j w, (j < n)%nat → j ≠ k → a !! A j = Some w → no_attack k val j w) →
  (k < n)%nat →
  placed n (S k) (<[A k := val]> a).
Proof.
  intros Hp Hval Hsafe Hk. pose proof (placed_None _ _ _ Hp) as Hnone.
  destruct Hp as (Hdom & Hsize & Hrange & Hatt).
  assert (∀ j w, a !! A j = Some w → (j < k)%nat) as Hlt.
  { intros j w Hj. destruct (proj1 (Hdom (A j))) as (i & Hi & HA); [eauto|].
    apply (inj A) in HA. lia. }
  split_and!.
  - intros s. destruct (decide (A k = s)) as [<-|Hne].
    + rewrite lookup_insert_eq. split; [|eauto]. intros _. exists k. split; [lia|done].
    + rewrite lookup_insert_ne, Hdom by done. split.
      * intros (i & ? & ->). exists i. split; [lia|done].
      * intros (i & ? & ->). exists i. split; [|done].
        destruct (decide (i = k)) as [->|]; [done|lia].
  - rewrite map_size_insert_None by done. by rewrite Hsize.
  - intros i w. destruct (decide (k = i)) as [<-|Hne].
    + rewrite lookup_insert_eq. by intros [= <-].
    + rewrite lookup_insert_ne by (by apply A_ne). apply Hrange.
  - intros i j wi wj Hij.
    destruct (decide (k = i)) as [<-|Hki], (decide (k = j)) as [<-|Hkj]; try done.
    + rewrite lookup_insert_eq, lookup_insert_ne by (by apply A_ne).
      intros [= <-] Hj. apply Hsafe; [|done..]. apply Hlt in Hj. lia.
    + rewrite lookup_insert_eq, lookup_insert_ne by (by apply A_ne).
      intros Hi [= <-]. apply no_attack_sym, Hsafe; [|done..]. apply Hlt in Hi. lia.
    + rewrite !lookup_insert_ne by (by apply A_ne). apply Hatt. done.
Qed.

Lemma placed_select n k a :
  placed n k a → (k < n)%nat → select (model n) a = Some (A k).
Proof.
  intros Hp Hk. apply select_from_prefix; [done| |by eapply placed_None].
  intros i Hi. apply Hp. eauto.
Qed.

Lemma model_inference n var val : inference (model n) var val = Some ∅.
Proof. reflexivity. Qed.

(** The loop over the rows of column [k], from a valid placement of the
    first [k] columns: it returns a full valid placement, or returns [None]
    with the dictionary restored. *)
Lemma for_values_model n k (rec : gmap symbol Z → outcome) vals a :
  (k < n)%nat → placed n k a →
  (∀ val, val ∈ vals → 0 ≤ val < Z.of_nat n) →
  (∀ a1, placed n (S k) a1 →
         (∃ r, rec a1 = Return r ∧ placed n n r) ∨ rec a1 = ReturnNone a1) →
  (∃ r, for_values rec (model n) (A k) vals a = Return r ∧ placed n n r) ∨
  for_values rec (model n) (A k) vals a = ReturnNone a.
Proof.
  intros Hk Hp Hvals Hrec. induction vals as [|val vals IH]; simpl; [by right|].
  destruct (is_consistent_model n k val a Hk) as (b & Hb & Hsafe).
  rewrite Hb. destruct b.
  - assert (placed n (S k) (<[A k:=val]> a)) as Hp'.
    { apply placed_insert; try done.
      - apply Hvals, list_elem_of_here.
      - by apply Hsafe. }
    unfold NQueensCSP.inference. rewrite update_empty.
    destruct (Hrec _ Hp') as [(r & -> & Hr)| ->].
    + rewrite decide_False; [left; eauto|].
      apply map_size_non_empty_iff. destruct Hr as (_ & -> & _). lia.
    + unfold undo. rewrite del_insert_fresh by (by eapply placed_None).
      rewrite keys_empty. simpl. apply IH.
      intros val' ?. apply Hvals. by apply list_elem_of_further.
  - apply IH. intros val' ?. apply Hvals. by apply list_elem_of_further.
Qed.

Lemma backtrack_model n depth k a :
  (k ≤ n)%nat → placed n k a → (n - k < depth)%nat →
  (∃ r, backtrack depth a (model n) = Return r ∧ placed n n r) ∨
  backtrack depth a (model n) = ReturnNone a.
Proof.
  revert k a. induction depth as [|depth IH]; intros k a Hk Hp Hdepth; [lia|].
  simpl. unfold backtrack_body.
  assert (is_complete (model n) a = bool_decide (k = n)) as ->.
  { simpl. unfold NQueensCSP.is_complete, len. simpl.
    destruct Hp as (_ & -> & _). apply bool_decide_ext. lia. }
  case_bool_decide as Hkn.
  - subst k. left. eauto.
  - rewrite (placed_select n k) by (done || lia). unfold order_values.
    change (domains (model n)) with (NQueensCSP.domains (model n)).
    rewrite model_domains, decide_True by (apply elem_of_symbols_A; exists k; split; [lia|done]).
    apply for_values_model; [lia|done| |].
    + intros val (i & -> & Hi%elem_of_seq)%list_elem_of_fmap. lia.
    + intros a1 Hp1. apply (IH (S k)); [lia|done|lia].
Qed.

(** ** The global constraint list *)

Lemma elem_of_constraints (self : NQueensCSP.t) c :
  c ∈ NQueensCSP.constraints self ↔
  ∃ v l, NQueensCSP._constraints self !! v = Some l ∧ c ∈ l.
Proof.
  unfold NQueensCSP.constraints.
  apply (map_fold_weak_ind
           (λ acc (m : gmap symbol (list Constraint)),
              c ∈ acc ↔ ∃ v l, m !! v = Some l ∧ c ∈ l)).
  - split; [by intros []%elem_of_nil|]. intros (v & l & Hl & _).
    by rewrite lookup_empty in Hl.
  - intros v l m acc Hv IH. rewrite elem_of_set_update, IH. split.
    + intros [(v' & l' & Hl' & Hc)|Hc].
      * exists v', l'. split; [|done]. rewrite lookup_insert_ne; [done|]. by intros ->; congruence.
      * exists v, l. by rewrite lookup_insert_eq.
    + intros (v' & l' & Hl' & Hc). destruct (decide (v = v')) as [<-|Hne].
      * rewrite lookup_insert_eq in Hl'. injection Hl' as <-. by right.
      * rewrite lookup_insert_ne in Hl' by done. left; eauto.
Qed.

Lemma elem_of_free_diffRow xi xj s :
  s ∈ constraint_free_symbols (diffRow_on xi xj) ↔ s = xi ∨ s = xj.
Proof.
  unfold constraint_free_symbols. rewrite elem_of_remove_dups. simpl.
  rewrite !elem_of_cons, elem_of_nil. tauto.
Qed.

Lemma elem_of_free_diffDiag xi xj d s :
  s ∈ constraint_free_symbols (diffDiag_on xi xj d) ↔ s = xi ∨ s = xj.
Proof.
  unfold constraint_free_symbols. rewrite elem_of_remove_dups. simpl.
  rewrite !elem_of_cons, elem_of_nil. tauto.
Qed.

Lemma model_constraints_key n v l :
  NQueensCSP._constraints (model n) !! v = Some l → ∃ k, (k < n)%nat ∧ v = A k.
Proof.
  intros Hl. apply elem_of_symbols_A.
  destruct (decide (v ∈ symbols "A" n)) as [|Hv]; [done|].
  apply model_constraints_None in Hv. congruence.
Qed.

(** The constraints of the model that reference a variable are the ones
    in its entry of the constraint index. *)
Lemma model_referencing n k c :
  (k < n)%nat →
  (c ∈ NQueensCSP.constraints (model n) ∧ A k ∈ constraint_free_symbols c) ↔
  ∃ l, NQueensCSP._constraints (model n) !! A k = Some l ∧ c ∈ l.
Proof.
  intros Hk. destruct (model_constraints_Some n k Hk) as (l & Hl & _ & Hin).
  split.
  - intros [(v & l' & Hl' & Hc)%elem_of_constraints Hfree].
    exists l. split; [done|]. apply Hin.
    destruct (model_constraints_key _ _ _ Hl') as (k' & Hk' & ->).
    destruct (model_constraints_Some n k' Hk') as (l'' & Hl'' & _ & Hin'').
    rewrite Hl' in Hl''. injection Hl'' as <-.
    apply Hin'' in Hc as (i & j & Hij & _ & Hc). exists i, j.
    split; [done|]. split; [|done].
    destruct Hc as [-> | ->];
      [apply elem_of_free_diffRow in Hfree|apply elem_of_free_diffDiag in Hfree];
      destruct Hfree as [Hfree|Hfree]; apply (inj A) in Hfree; auto.
  - intros (l' & Hl' & Hc). rewrite Hl in Hl'. injection Hl' as <-. split.
    + apply elem_of_constraints. eauto.
    + apply Hin in Hc as (i & j & Hij & Hk' & Hc).
      destruct Hk' as [-> | ->], Hc as [-> | ->];
        rewrite ?elem_of_free_diffRow, ?elem_of_free_diffDiag; auto.
Qed.

(** C7: for every [N] the constructor puts, for each pair of columns
    [i < j], exactly one different-row constraint and exactly one
    different-diagonal constraint with column distance [j - i] into the
    index entry of [A i] and into the index entry of [A j]; these are the
    only constraints of either entry that mention both columns; and every
    constraint in the entry of a variable references that variable. *)
Theorem init_constraint_index (N : Z) (csp : NQueensCSP.t) :
  NQueensCSP.__init__ N = inr csp →
  (∀ i j : nat, (i < j)%nat → Z.of_nat j < N →
     let row := subs (<[rows !!! 0%nat := Sym (A i)]> (<[rows !!! 1%nat := Sym (A j)]> ∅)) diffRow in
     let diag := subs (<[rows !!! 0%nat := Sym (A i)]> (<[rows !!! 1%nat := Sym (A j)]>
                        (<[col_diff := Int (Z.of_nat j - Z.of_nat i)]> ∅))) diffDiag in
     ∀ v, v = A i ∨ v = A j →
       ∃ l, NQueensCSP._constraints csp !! v = Some l ∧
            count_occ Constraint_eq_dec l row = 1%nat ∧
            count_occ Constraint_eq_dec l diag = 1%nat ∧
            ∀ c, c ∈ l → A i ∈ constraint_free_symbols c →
                 A j ∈ constraint_free_symbols c → c = row ∨ c = diag) ∧
  (∀ v l c, NQueensCSP._constraints csp !! v = Some l → c ∈ l →
            v ∈ constraint_free_symbols c).
Proof.
  intros [HN ->]%init_inr. set (n := Z.to_nat N). split.
  - intros i j Hij Hj row diag v Hv.
    subst row diag. rewrite subs_diffRow, subs_diffDiag.
    assert (∃ k, (k < n)%nat ∧ (k = i ∨ k = j) ∧ v = A k) as (k & Hk & Hkij & ->).
    { destruct Hv as [-> | ->]; [exists i|exists j]; split_and?; auto; lia. }
    destruct (model_constraints_Some n k Hk) as (l & Hl & Hnd & Hin).
    exists l. split; [exact Hl|]. split_and!.
    + apply (proj1 (NoDup_count_occ' Constraint_eq_dec l)
               (proj1 (NoDup_ListNoDup l) Hnd)), list_elem_of_In, Hin.
      exists i, j. split_and?; auto; lia.
    + apply (proj1 (NoDup_count_occ' Constraint_eq_dec l)
               (proj1 (NoDup_ListNoDup l) Hnd)), list_elem_of_In, Hin.
      exists i, j. split_and?; auto; lia.
    + intros c (i' & j' & Hij' & _ & Hc)%Hin Hfi Hfj.
      assert (i' = i ∧ j' = j) as [-> ->].
      { destruct Hc as [-> | ->];
          rewrite ?elem_of_free_diffRow, ?elem_of_free_diffDiag in Hfi, Hfj;
          destruct Hfi as [Hfi|Hfi], Hfj as [Hfj|Hfj];
          apply (inj A) in Hfi; apply (inj A) in Hfj; lia. }
      done.
  - intros v l c Hl Hc.
    destruct (model_constraints_key _ _ _ Hl) as (k & Hk & ->).
    apply (model_referencing n k c Hk). eauto.
Qed.

Lemma init_constraint_index_witness :
  ∃ l, NQueensCSP._constraints (model 3) !! A 2 = Some l ∧
       count_occ Constraint_eq_dec l (diffRow_on (A 0) (A 2)) = 1%nat ∧
       count_occ Constraint_eq_dec l (diffDiag_on (A 0) (A 2) 2) = 1%nat.
Proof.
  destruct (init_constraint_index 3 (model 3) eq_refl) as [Hpair _].
  destruct (Hpair 0%nat 2%nat ltac:(lia) ltac:(lia) (A 2) ltac:(by right))
    as (l & Hl & Hrow & Hdiag & _).
  exists l. split_and!; [exact Hl|exact Hrow|exact Hdiag].
Defined.

(** C2: for a variable [A k] of the model, [is_consistent] returns a
    boolean, which is true exactly when no constraint of the model that
    references the variable evaluates to false once the candidate value
    and the bindings of the assignment are substituted; a constraint
    whose other variable is unbound does not evaluate to false, so the
    answer is true whenever every other variable is unbound; and
    in terms of the board, the answer is true exactly when the candidate
    queen attacks none of the queens already placed. *)
Theorem is_consistent_iff (N : Z) (csp : NQueensCSP.t) (k : nat) (value : Z)
    (assignment : gmap symbol Z) :
  NQueensCSP.__init__ N = inr csp → Z.of_nat k < N →
  ∃ b : bool,
    NQueensCSP.is_consistent csp (A k) value assignment = inr b ∧
    (b = true ↔
     ∀ c, c ∈ NQueensCSP.constraints csp → A k ∈ constraint_free_symbols c →
          evaluate (expression (substituted (A k) value assignment c)) ≠ IsFalse) ∧
    (∀ c other, c ∈ NQueensCSP.constraints csp → A k ∈ constraint_free_symbols c →
                other ∈ constraint_free_symbols c → other ≠ A k →
                assignment !! other = None →
                evaluate (expression (substituted (A k) value assignment c)) ≠ IsFalse) ∧
    ((∀ j, Z.of_nat j < N → j ≠ k → assignment !! A j = None) → b = true) ∧
    (b = true ↔
     ∀ j w, Z.of_nat j < N → j ≠ k → assignment !! A j = Some w →
            value ≠ w ∧ Z.abs (value - w) ≠ Z.abs (Z.of_nat k - Z.of_nat j)).
Proof.
  intros [HN ->]%init_inr Hk'. set (n := Z.to_nat N).
  assert (k < n)%nat as Hk by lia.
  destruct (is_consistent_model n k value assignment Hk) as (b & Hb & Hsafe).
  destruct (model_constraints_Some n k Hk) as (l & Hl & _ & Hin).
  assert (∀ c, evaluate (expression c) ≠ IsFalse ↔ truthy c = true) as Htruthy.
  { intros c. unfold truthy. destruct (evaluate (expression c)); split; done. }
  assert (b = true ↔ ∀ c, c ∈ l → truthy (substituted (A k) value assignment c) = true)
    as Hcheck.
  { unfold NQueensCSP.is_consistent in Hb. rewrite Hl in Hb. injection Hb as <-.
    apply check_constraints_true. }
  assert (∀ c, (c ∈ NQueensCSP.constraints (model n) ∧ A k ∈ constraint_free_symbols c)
               ↔ c ∈ l) as Href.
  { intros c. rewrite (model_referencing n k c Hk). split.
    - intros (l' & Hl' & Hc). rewrite Hl in Hl'. by injection Hl' as <-.
    - intros Hc. eauto. }
  exists b. split; [done|]. split_and!.
  - rewrite Hcheck. split.
    + intros Hall c Hc Hfree. apply Htruthy, Hall, Href. done.
    + intros Hall c Hc. apply Href in Hc as [Hc Hfree]. apply Htruthy. auto.
  - intros c other Hc Hfree Hother Hne Hunbound. apply Htruthy.
    assert (c ∈ l) as (i & j & Hij & Hkij & Hcc)%Hin by (by apply Href).
    destruct Hkij as [<- | <-], Hcc as [-> | ->];
      rewrite ?elem_of_free_diffRow, ?elem_of_free_diffDiag in Hother;
      destruct Hother as [-> | ->]; try done.
    + apply truthy_diffRow_fst; [apply A_ne; lia|]. intros w. by rewrite Hunbound.
    + apply truthy_diffDiag_fst; [apply A_ne; lia|]. intros w. by rewrite Hunbound.
    + apply truthy_diffRow_snd; [apply A_ne; lia|]. intros w. by rewrite Hunbound.
    + apply truthy_diffDiag_snd; [apply A_ne; lia|]. intros w. by rewrite Hunbound.
  - intros Hunbound. apply Hsafe. intros j w Hj Hjk. rewrite Hunbound by (done || lia). done.
  - rewrite Hsafe. unfold no_attack. split.
    + intros Hall j w Hj Hjk Hw. apply Hall; [lia|done..].
    + intros Hall j w Hj Hjk Hw. apply Hall; [lia|done..].
Qed.

Lemma is_consistent_iff_witness :
  ∃ b : bool,
    NQueensCSP.is_consistent (model 4) (A 1) 3 {[A 0 := 1]} = inr b ∧
    (b = true ↔
     ∀ j w, Z.of_nat j < 4 → j ≠ 1%nat → ({[A 0 := 1]} : gmap symbol Z) !! A j = Some w →
            3 ≠ w ∧ Z.abs (3 - w) ≠ Z.abs (Z.of_nat 1 - Z.of_nat j)).
Proof.
  destruct (is_consistent_iff 4 (model 4) 1 3 {[A 0 := 1]} eq_refl ltac:(lia))
    as (b & Hb & _ & _ & _ & Hboard).
  exists b. split; [exact Hb|exact Hboard].
Defined.

(** ** Completeness of an assignment *)

Lemma is_complete_model n (assignment : gmap symbol Z) :
  (∀ v, is_Some (assignment !! v) → v ∈ symbols "A" n) →
  NQueensCSP.is_complete (model n) assignment = true ↔
  ∀ v, is_Some (assignment !! v) ↔ v ∈ symbols "A" n.
Proof.
  intros Hkeys.
  unfold NQueensCSP.is_complete, len. simpl. rewrite bool_decide_eq_true.
  pose proof (NoDup_symbols_A n) as Hnd. pose proof (length_symbols_A n) as Hlen.
  set (vars := symbols "A" n) in *.
  assert (size (list_to_set vars : gset symbol) = n) as Hsize
    by (by rewrite size_list_to_set).
  assert (dom assignment ⊆ (list_to_set vars : gset symbol)) as Hsub.
  { intros v Hv%elem_of_dom. by apply elem_of_list_to_set, Hkeys. }
  rewrite <- (size_dom (D:=gset symbol) assignment). split.
  - intros Hsz v. split; [apply Hkeys|]. intros Hv.
    apply elem_of_dom. rewrite (set_subseteq_size_eq _ _ Hsub) by lia.
    by apply elem_of_list_to_set.
  - intros Hall. assert (dom assignment = list_to_set vars) as ->; [|lia].
    apply set_eq. intros v. by rewrite elem_of_dom, elem_of_list_to_set.
Qed.

(** C6: for every assignment, a dictionary whose keys are variables of
    the model, [is_complete] returns true exactly when the assignment
    binds every variable of the model: its bound variables are the
    variables of the model. *)
Theorem is_complete_iff (N : Z) (csp : NQueensCSP.t) (assignment : gmap symbol Z) :
  NQueensCSP.__init__ N = inr csp →
  (∀ v, is_Some (assignment !! v) → v ∈ NQueensCSP.variables csp) →
  NQueensCSP.is_complete csp assignment = true ↔
  ∀ v, is_Some (assignment !! v) ↔ v ∈ NQueensCSP.variables csp.
Proof. intros [HN ->]%init_inr. apply is_complete_model. Qed.

Lemma is_complete_iff_witness :
  NQueensCSP.is_complete (model 1) {[A 0 := 0]} = true ↔
  ∀ v, is_Some (({[A 0 := 0]} : gmap symbol Z) !! v) ↔ v ∈ NQueensCSP.variables (model 1).
Proof.
  apply (is_complete_iff 1 (model 1) {[A 0 := 0]} eq_refl).
  intros v Hv. destruct (decide (A 0 = v)) as [<-|Hne].
  - apply list_elem_of_here.
  - rewrite lookup_singleton_ne in Hv by exact Hne. destruct Hv as [? Hv]. discriminate Hv.
Defined.

(** ** Construction for sizes that are not positive *)

(** C4, as the code has it: the constructor has no check of its own on
    [N]. For [N <= 0]: a negative [N] fails in [symbols] with
    [ValueError], before any search begins; [N = 0] builds the empty
    model. *)
Theorem init_nonpositive (N : Z) (depth : nat) :
  N ≤ 0 →
  (N < 0 → NQueensCSP.__init__ N = inl ValueError ∧ solve depth N = Raise ValueError) ∧
  (N = 0 →
   NQueensCSP.__init__ N
   = inr {| NQueensCSP.size := 0; NQueensCSP.variables := [];
            NQueensCSP.domains := ∅; NQueensCSP._constraints := ∅ |}).
Proof.
  intros _. split.
  - intros HN. assert (NQueensCSP.__init__ N = inl ValueError) as Hinit.
    { apply init_inl. done. }
    split; [done|]. unfold solve. by rewrite Hinit.
  - intros ->. reflexivity.
Qed.

Lemma init_nonpositive_witness :
  NQueensCSP.__init__ (-1) = inl ValueError ∧ solve 1 (-1) = Raise ValueError.
Proof.
  apply (proj1 (init_nonpositive (-1) 1%nat ltac:(lia))). reflexivity.
Defined.

(** The claim that every [N <= 0] is rejected fails at [N = 0]. *)
Lemma init_zero_succeeds :
  ¬ (∀ N, N ≤ 0 → ∃ e, NQueensCSP.__init__ N = inl e).
Proof. intros Hclaim. destruct (Hclaim 0 ltac:(lia)) as [e He]. discriminate He. Qed.


(** ** Outcomes of the search on the model *)

Lemma search_model n depth :
  (n < depth)%nat →
  (∃ r, backtracking_search depth (model n) = Return r ∧ placed n n r) ∨
  backtracking_search depth (model n) = ReturnNone ∅.
Proof.
  intros Hdepth. apply (backtrack_model n depth 0); [lia|apply placed_empty|lia].
Qed.

Lemma search_model_Return n depth r :
  backtracking_search depth (model n) = Return r → placed n n r.
Proof.
  intros Hr.
  assert (backtracking_search (depth + S n) (model n) = Return r) as Hr'.
  { unfold backtracking_search in *. eapply backtrack_mono; [|done..]. lia. }
  destruct (search_model n (depth + S n)) as [(r' & Hr'' & Hp)|Hnone]; [lia| |].
  - rewrite Hr' in Hr''. by injection Hr'' as <-.
  - by rewrite Hr' in Hnone.
Qed.

Lemma solve_mono depth depth' N o :
  (depth ≤ depth')%nat → solve depth N = o → o ≠ OutOfFuel → solve depth' N = o.
Proof.
  unfold solve, backtracking_search. intros Hle.
  destruct (NQueensCSP.__init__ N); [done|]. by apply backtrack_mono.
Qed.

(** C8: for one queen the search returns the assignment of row 0 to the
    only variable; for two and for three queens it returns [None]. A
    recursion depth of [N + 1] is enough, and any larger depth gives the
    same outcome. *)
Theorem search_small_boards (extra : nat) :
  solve (2 + extra) 1 = Return {[A 0 := 0]} ∧
  solve (3 + extra) 2 = ReturnNone ∅ ∧
  solve (4 + extra) 3 = ReturnNone ∅.
Proof.
  split_and!.
  - apply (solve_mono 2); [lia|by vm_compute|done].
  - apply (solve_mono 3); [lia|by vm_compute|done].
  - apply (solve_mono 4); [lia|by vm_compute|done].
Qed.

(** C1: for [N >= 1], an assignment returned by the search binds exactly
    the [N] variables of the model, each once ([N] bindings in all), to
    rows in [[0, N)], and the queens of two different columns are neither
    on the same row nor on the same diagonal. *)
Theorem backtracking_search_sound (N : Z) (csp : NQueensCSP.t) (depth : nat)
    (assignment : gmap symbol Z) :
  1 ≤ N → NQueensCSP.__init__ N = inr csp →
  backtracking_search depth csp = Return assignment →
  (∀ v, is_Some (assignment !! v) ↔ v ∈ NQueensCSP.variables csp) ∧
  len assignment = N ∧
  (∀ v w, assignment !! v = Some w → 0 ≤ w < N) ∧
  (∀ (i j : nat) (wi wj : Z),
     i ≠ j → assignment !! A i = Some wi → assignment !! A j = Some wj →
     wi ≠ wj ∧ Z.abs (wi - wj) ≠ Z.abs (Z.of_nat i - Z.of_nat j)).
Proof.
  intros HN [_ ->]%init_inr Hr. set (n := Z.to_nat N) in *.
  apply search_model_Return in Hr as (Hdom & Hsize & Hrange & Hatt).
  split_and!.
  - intros v. rewrite Hdom. simpl. by rewrite elem_of_symbols_A.
  - unfold len. lia.
  - intros v w Hw. destruct (proj1 (Hdom v)) as (i & _ & ->); [eauto|].
    apply Hrange in Hw. lia.
  - intros i j wi wj Hij Hi Hj. by apply (Hatt i j).
Qed.

Lemma backtracking_search_sound_witness :
  ∃ assignment : gmap symbol Z,
    backtracking_search 5 (model 4) = Return assignment ∧
    len assignment = 4 ∧
    ∀ (i j : nat) (wi wj : Z),
      i ≠ j → assignment !! A i = Some wi → assignment !! A j = Some wj →
      wi ≠ wj ∧ Z.abs (wi - wj) ≠ Z.abs (Z.of_nat i - Z.of_nat j).
Proof.
  exists (<[A 0 := 1]> (<[A 1 := 3]> (<[A 2 := 0]> {[A 3 := 2]}))).
  assert (backtracking_search 5 (model 4)
          = Return (<[A 0 := 1]> (<[A 1 := 3]> (<[A 2 := 0]> {[A 3 := 2]})))) as Hr.
  { vm_compute. reflexivity. }
  destruct (backtracking_search_sound 4 (model 4) 5 _ ltac:(lia) eq_refl Hr)
    as (_ & Hlen & _ & Hsafe).
  split; [exact Hr|]. split; [exact Hlen|exact Hsafe].
Defined.

(** ** Recursive calls *)

Section calls.
Context {C : Type} `{CSP C}.

(** With the default inference, the loop calls [backtrack] only on
    assignments that have exactly one binding more than the assignment
    the loop started from. *)
Lemma for_values_calls_larger (rec rec' : gmap symbol Z → outcome) (csp : C) var vals a :
  (∀ var val, inference csp var val = Some ∅) →
  (∀ a1 a2, rec a1 = ReturnNone a2 → a2 = a1) →
  a !! var = None →
  (∀ a1, size a1 = S (size a) → rec a1 = rec' a1) →
  for_values rec csp var vals a = for_values rec' csp var vals a.
Proof.
  intros Hinf Hrec Hvar Hsame. induction vals as [|val vals IH]; simpl; [done|].
  destruct (is_consistent csp var val a) as [e|[|]]; [done| |done].
  rewrite Hinf, update_empty.
  rewrite <- (Hsame (<[var:=val]> a)) by (by apply map_size_insert_None).
  destruct (rec (<[var:=val]> a)) as [r|a3| |] eqn:Hr; try done.
  - case_decide as Hempty; [|done]. subst r. unfold undo, del. by rewrite lookup_empty.
  - apply Hrec in Hr as ->. unfold undo. rewrite del_insert_fresh by done.
    by rewrite keys_empty.
Qed.

Lemma backtrack_body_calls_larger (rec' : gmap symbol Z → outcome) (csp : C) depth a :
  (∀ var val, inference csp var val = Some ∅) →
  (∀ a1, size a1 = S (size a) → backtrack depth a1 csp = rec' a1) →
  backtrack_body (λ a1, backtrack depth a1 csp) a csp = backtrack_body rec' a csp.
Proof.
  intros Hinf Hsame. unfold backtrack_body. destruct (is_complete csp a); [done|].
  destruct (order_values _ _ _) as [e|vals]; [done|].
  destruct (select csp a) as [var|] eqn:Hsel; [|done].
  apply select_from_Some in Hsel as [_ Hvar].
  apply for_values_calls_larger; try done.
  intros a1 a2. by apply backtrack_restore.
Qed.

(** When the inference hook returns [None] for a consistent candidate, the
    loop removes the tentative binding and then raises [AttributeError]
    at [inferences.keys()]; the recursive call is not made and no further
    candidate is tried. *)
Lemma for_values_inference_None (rec : gmap symbol Z → outcome) (csp : C) var val vals a :
  is_consistent csp var val a = inr true →
  inference csp var val = None →
  for_values rec csp var (val :: vals) a = Raise AttributeError.
Proof.
  intros Hcons Hinf. simpl. rewrite Hcons, Hinf. unfold undo, del.
  by rewrite lookup_insert_eq.
Qed.

End calls.

(** ** No partial results *)

Lemma placed_is_solution n a : placed n n a → is_solution (Z.of_nat n) a.
Proof.
  intros (Hdom & Hsize & Hrange & Hatt). split_and!.
  - intros v. rewrite Hdom. split; intros (i & Hi & ->); exists i; split; (lia || done).
  - intros v w Hw. destruct (proj1 (Hdom v)) as (i & _ & ->); [eauto|].
    by apply Hrange in Hw.
  - done.
Qed.

(** The shadowing hook proposes only unbound symbols during the search. *)
Lemma shadowing_proposes_unbound n : proposes_unbound (shadowing n) shadows_bound.
Proof.
  intros a var vals val inf HI _ Hsel _ _ _ Hinf.
  apply select_from_Some in Hsel as [Hin Hvar].
  apply elem_of_symbols_A in Hin as (k & _ & ->).
  injection Hinf as <-.
  assert (Symbol ("I" +:+ A k) ≠ A k) as Hne by discriminate.
  split.
  - intros key Hkey. destruct (decide (key = Symbol ("I" +:+ A k))) as [->|Hkey'].
    + split; [done|]. destruct (a !! Symbol ("I" +:+ A k)) eqn:E; [|done].
      destruct (HI (A k)) as [w Hw]; [eauto|]. congruence.
    + rewrite lookup_singleton_ne in Hkey by done. by destruct Hkey.
  - intros s. unfold update. rewrite !lookup_union_is_Some.
    intros [Hs|Hs].
    + destruct (decide (Symbol ("I" +:+ A k) = Symbol ("I" +:+ s))) as [Heq|Hneq].
      * injection Heq as Heq. change (A k = s) in Heq. subst s.
        right. rewrite lookup_insert_eq. eauto.
      * rewrite lookup_singleton_ne in Hs by done. by destruct Hs.
    + right. destruct (decide (A k = Symbol ("I" +:+ s))) as [Heq|Hneq]; [discriminate Heq|].
      rewrite lookup_insert_ne in Hs by done. apply HI in Hs.
      destruct (decide (A k = s)) as [<-|?]; [rewrite lookup_insert_eq; eauto|].
      by rewrite lookup_insert_ne.
Qed.

Lemma shadows_bound_first_column : shadows_bound {[A 0 := 0]}.
Proof.
  intros s. rewrite lookup_singleton_ne by discriminate. by intros [? ?].
Qed.

(** C3, as the code has it: a call of [backtrack] that returns [None]
    leaves the assignment dictionary with exactly the bindings it had on
    entry on the N-Queens model, whose inference infers nothing, and on
    any CSP whose inference hook proposes only variables that are not
    bound yet; the statements that undo a branch then remove the
    tentative binding and every inferred binding; and the search on the
    model returns a full valid placement or [None] with the dictionary
    empty again. *)
Theorem backtrack_no_partial_result (N : Z) (csp : NQueensCSP.t) :
  NQueensCSP.__init__ N = inr csp →
  (∀ depth assignment assignment',
     backtrack depth assignment csp = ReturnNone assignment' →
     assignment' = assignment) ∧
  (∀ (C : Type) (HC : CSP C) (csp' : C) (I : gmap symbol Z → Prop)
     depth assignment assignment',
     proposes_unbound csp' I → I assignment →
     backtrack depth assignment csp' = ReturnNone assignment' →
     assignment' = assignment) ∧
  (∀ var val (inferences assignment : gmap symbol Z),
     assignment !! var = None →
     (∀ k, is_Some (inferences !! k) → k ≠ var ∧ assignment !! k = None) →
     undo var (Some inferences) (update inferences (<[var := val]> assignment))
     = inr assignment) ∧
  (∀ depth, (Z.to_nat N < depth)%nat →
     (∃ assignment, backtracking_search depth csp = Return assignment ∧
                    is_solution N assignment) ∨
     backtracking_search depth csp = ReturnNone ∅) ∧
  (∀ depth assignment,
     backtracking_search depth csp = Return assignment → is_solution N assignment).
Proof.
  intros [HN ->]%init_inr. set (n := Z.to_nat N).
  assert (N = Z.of_nat n) as HNn by lia. split_and!.
  - intros depth a a'. apply backtrack_restore. apply model_inference.
  - intros C HC csp' I depth a a'. apply backtrack_restore_fresh.
  - intros var val inf a. apply undo_update_fresh.
  - intros depth Hdepth. destruct (search_model n depth Hdepth) as [(r & Hr & Hp)|Hnone].
    + left. exists r. split; [done|]. rewrite HNn. by apply placed_is_solution.
    + by right.
  - intros depth a Hr. rewrite HNn.
    by apply placed_is_solution, (search_model_Return n depth).
Qed.

(** With the first queen in the corner of the 4x4 board, the call tries
    rows for the other columns and undoes them all, with and without
    inferred bindings; on the 3x3 board the search fails. *)
Lemma backtrack_no_partial_result_witness :
  backtrack 3 {[A 0 := 0]} (model 4) = ReturnNone {[A 0 := 0]} ∧
  backtrack 3 {[A 0 := 0]} (shadowing 4) = ReturnNone {[A 0 := 0]} ∧
  backtracking_search 4 (model 3) = ReturnNone ∅.
Proof.
  destruct (backtrack_no_partial_result 4 (model 4) eq_refl) as (Hmodel & Hhook & _).
  destruct (backtrack_no_partial_result 3 (model 3) eq_refl) as (_ & _ & _ & Hsearch & _).
  split; [|split].
  - assert (∃ a', backtrack 3 {[A 0 := 0]} (model 4) = ReturnNone a') as [a' Ha'].
    { eexists. vm_compute. reflexivity. }
    rewrite Ha'. f_equal. exact (Hmodel _ _ _ Ha').
  - assert (∃ a', backtrack 3 {[A 0 := 0]} (shadowing 4) = ReturnNone a') as [a' Ha'].
    { eexists. vm_compute. reflexivity. }
    rewrite Ha'. f_equal.
    exact (Hhook _ _ (shadowing 4) shadows_bound _ _ _
             (shadowing_proposes_unbound 4) shadows_bound_first_column Ha').
  - destruct (Hsearch 4%nat ltac:(vm_compute; lia)) as [(r & Hr & _)|Hnone].
    + vm_compute in Hr. discriminate Hr.
    + exact Hnone.
Defined.

(** Without the precondition on the hook the first part of C3 fails: with
    a hook that infers a row for the first column, the call on [{A0: 0}]
    for three queens binds [A1], merges the inferred binding of [A0],
    fails below, deletes both, and returns [None] with the dictionary
    empty. *)
Lemma backtrack_rebinding_loses_binding :
  ¬ (∀ (C : Type) (HC : CSP C) (csp : C) depth (assignment assignment' : gmap symbol Z),
       backtrack depth assignment csp = ReturnNone assignment' →
       assignment' = assignment).
Proof.
  intros Hclaim.
  assert (backtrack 2 {[A 0 := 0]} (rebinding 3) = ReturnNone ∅) as Hr.
  { vm_compute. reflexivity. }
  apply Hclaim in Hr. apply (f_equal (λ m : gmap symbol Z, m !! A 0)) in Hr.
  rewrite lookup_empty, lookup_singleton_eq in Hr. discriminate Hr.
Qed.

(** ** Termination *)

(** C9: for [N >= 1] the search on the model finishes within a recursion
    depth of [N + 1] activations, with the same outcome for any larger
    depth; from a valid placement of the first [k] columns a depth of
    [N - k + 1] is enough; a call only recurses on assignments with one
    more binding than its own; and on an assignment that binds all the
    variables it returns at once. *)
Theorem backtracking_search_terminates (N : Z) (csp : NQueensCSP.t) :
  1 ≤ N → NQueensCSP.__init__ N = inr csp →
  (∀ depth, (Z.to_nat N < depth)%nat →
     ∃ assignment,
       (backtracking_search depth csp = Return assignment ∨
        backtracking_search depth csp = ReturnNone assignment) ∧
       backtracking_search depth csp = backtracking_search (S (Z.to_nat N)) csp) ∧
  (∀ depth (k : nat) assignment,
     (k ≤ Z.to_nat N)%nat → placed (Z.to_nat N) k assignment →
     (Z.to_nat N - k < depth)%nat →
     ∃ assignment',
       backtrack depth assignment csp = Return assignment' ∨
       backtrack depth assignment csp = ReturnNone assignment') ∧
  (∀ depth assignment (rec : gmap symbol Z → outcome),
     (∀ a1, size a1 = S (size assignment) → backtrack depth a1 csp = rec a1) →
     backtrack (S depth) assignment csp = backtrack_body rec assignment csp) ∧
  (∀ depth assignment,
     (∀ v, is_Some (assignment !! v) ↔ v ∈ NQueensCSP.variables csp) →
     backtrack (S depth) assignment csp = Return assignment).
Proof.
  intros HN [_ ->]%init_inr. set (n := Z.to_nat N). split_and!.
  - intros depth Hdepth.
    assert (∃ a, backtracking_search (S n) (model n) = Return a ∨
                 backtracking_search (S n) (model n) = ReturnNone a) as (a & Ha).
    { destruct (search_model n (S n)) as [(r & Hr & _)|Hnone]; [lia|eauto..]. }
    assert (backtracking_search depth (model n) = backtracking_search (S n) (model n)) as Heq.
    { unfold backtracking_search in *.
      apply (backtrack_mono (model n) (S n) depth); [lia|done|].
      destruct Ha as [-> | ->]; done. }
    exists a. split; [|done]. by rewrite Heq.
  - intros depth k a Hk Hp Hdepth.
    destruct (backtrack_model n depth k a Hk Hp Hdepth) as [(r & Hr & _)|Hnone]; eauto.
  - intros depth a rec Hsame. simpl.
    apply backtrack_body_calls_larger; [apply model_inference|done].
  - intros depth a Hall. simpl. unfold backtrack_body.
    assert (is_complete (model n) a = true) as ->; [|done].
    apply is_complete_model; [|done]. intros v. apply Hall.
Qed.

Lemma backtracking_search_terminates_witness :
  ∃ assignment,
    (backtracking_search 9 (model 8) = Return assignment ∨
     backtracking_search 9 (model 8) = ReturnNone assignment) ∧
    backtracking_search 9 (model 8) = backtracking_search 9 (model 8).
Proof.
  destruct (backtracking_search_terminates 8 (model 8) ltac:(lia) eq_refl)
    as (Hsearch & _).
  apply (Hsearch 9%nat). vm_compute. lia.
Defined.

(** ** An inference hook that signals failure *)

(** C5 fails on the code: on the one-queen model whose inference hook
    signals failure, the only candidate is consistent, its tentative
    binding is removed, and [backtrack] then raises [AttributeError]
    instead of going on to the next candidate and returning [None]. *)
Theorem inference_failure_raises (depth : nat) :
  is_consistent (dead_end (model 1)) (A 0) 0 ∅ = inr true ∧
  inference (dead_end (model 1)) (A 0) 0 = None ∧
  backtracking_search (S depth) (dead_end (model 1)) = Raise AttributeError.
Proof.
  split_and!; [by vm_compute|done|].
  unfold backtracking_search. simpl. unfold backtrack_body.
  change (is_complete (dead_end (model 1)) ∅) with false.
  change (select (dead_end (model 1)) ∅) with (Some (A 0)).
  change (order_values (Some (A 0)) ∅ (dead_end (model 1))) with (inr (B:=list Z) (A:=exn) [0]).
  cbv iota beta. by apply for_values_inference_None.
Qed.


(** * Further properties of the search *)

Section generic_search.
Context {C : Type} `{CSP C}.

(** X1: [select] returns the first variable of [csp.variables] that the
    assignment does not bind, and [None] exactly when all are bound. *)
Theorem select_first_unbound (csp : C) (assignment : gmap symbol Z) :
  match select csp assignment with
  | Some var =>
      ∃ before after,
        variables csp = before ++ var :: after ∧
        (∀ v, v ∈ before → is_Some (assignment !! v)) ∧
        assignment !! var = None
  | None => ∀ v, v ∈ variables csp → is_Some (assignment !! v)
  end.
Proof.
  unfold select. induction (variables csp) as [|x vars IH]; simpl.
  - intros v []%elem_of_nil.
  - destruct (assignment !! x) as [w|] eqn:Hx.
    + destruct (select_from vars assignment) as [var|].
      * destruct IH as (before & after & -> & Hbefore & Hvar).
        exists (x :: before), after. split_and!; [done| |done].
        intros v [->|?]%elem_of_cons; eauto.
      * intros v [->|?]%elem_of_cons; eauto.
    + exists [], vars. split_and!; [done| |done]. intros v []%elem_of_nil.
Qed.

(** X2: when every variable is bound but the assignment does not count as
    complete, [select] finds nothing and [csp.domains[None]] raises
    [KeyError]. *)
Theorem backtrack_all_bound_incomplete (csp : C) depth (assignment : gmap symbol Z) :
  is_complete csp assignment = false →
  (∀ v, v ∈ variables csp → is_Some (assignment !! v)) →
  backtrack (S depth) assignment csp = Raise KeyError.
Proof.
  intros Hc Hall. simpl. unfold backtrack_body. rewrite Hc.
  assert (select csp assignment = None) as -> by (by apply select_from_None).
  done.
Qed.

Lemma for_values_Return_complete (rec : gmap symbol Z → outcome) (csp : C) var vals a r :
  (∀ a1 r1, rec a1 = Return r1 → is_complete csp r1 = true) →
  for_values rec csp var vals a = Return r → is_complete csp r = true.
Proof.
  intros Hrec. revert a. induction vals as [|val vals IH]; intros a; simpl; [done|].
  destruct (is_consistent csp var val a) as [e|[|]]; [done| |by apply IH].
  destruct (inference csp var val) as [inf|].
  - destruct (rec (update inf (<[var:=val]> a))) as [r1|a3| |] eqn:Hr; try done.
    + case_decide.
      * destruct (undo _ _ _); [done|by apply IH].
      * intros [= <-]. by eapply Hrec.
    + destruct (undo _ _ _); [done|by apply IH].
  - destruct (undo _ _ _); [done|by apply IH].
Qed.

(** X3: an assignment returned by [backtrack] passes [csp.is_complete],
    for any CSP and whatever its inference hook does. *)
Theorem backtrack_Return_complete (csp : C) depth (assignment result : gmap symbol Z) :
  backtrack depth assignment csp = Return result → is_complete csp result = true.
Proof.
  revert assignment result. induction depth as [|depth IH]; intros a r; simpl; [done|].
  unfold backtrack_body. destruct (is_complete csp a) eqn:Hc; [by intros [= <-]|].
  destruct (order_values _ _ _) as [e|vals]; [done|].
  destruct (select csp a) as [var|]; [|done].
  apply for_values_Return_complete. intros a1 r1. apply IH.
Qed.

Lemma for_values_Return_extends (rec : gmap symbol Z → outcome) (csp : C) var vals a r :
  (∀ var val, inference csp var val = Some ∅) →
  (∀ a1 a2, rec a1 = ReturnNone a2 → a2 = a1) →
  (∀ a1 r1, rec a1 = Return r1 →
            a1 ⊆ r1 ∧ ∀ k, is_Some (r1 !! k) → is_Some (a1 !! k) ∨ k ∈ variables csp) →
  a !! var = None → var ∈ variables csp →
  for_values rec csp var vals a = Return r →
  a ⊆ r ∧ ∀ k, is_Some (r !! k) → is_Some (a !! k) ∨ k ∈ variables csp.
Proof.
  intros Hinf Hnone Hret Hvar Hin. induction vals as [|val vals IH]; simpl; [done|].
  destruct (is_consistent csp var val a) as [e|[|]]; [done| |done].
  rewrite Hinf, update_empty.
  destruct (rec (<[var:=val]> a)) as [r1|a3| |] eqn:Hr; try done.
  - case_decide as Hempty.
    + subst r1. unfold undo, del. by rewrite lookup_empty.
    + intros [= <-]. destruct (Hret _ _ Hr) as [Hsub Hkeys]. split.
      * etrans; [|done]. by apply insert_subseteq.
      * intros k Hk. destruct (Hkeys k Hk) as [Hk'|?]; [|by right].
        destruct (decide (var = k)) as [<-|Hne]; [by right|].
        left. by rewrite lookup_insert_ne in Hk'.
  - apply Hnone in Hr as ->. unfold undo. rewrite del_insert_fresh by done.
    by rewrite keys_empty.
Qed.

(** X4: for any CSP that keeps the default inference, an assignment
    returned by [backtrack] extends the assignment the call started from,
    and every key it adds is a variable of the CSP. *)
Theorem backtrack_Return_extends (csp : C) depth (assignment result : gmap symbol Z) :
  (∀ var val, inference csp var val = Some ∅) →
  backtrack depth assignment csp = Return result →
  assignment ⊆ result ∧
  ∀ k, is_Some (result !! k) → is_Some (assignment !! k) ∨ k ∈ variables csp.
Proof.
  intros Hinf. revert assignment result.
  induction depth as [|depth IH]; intros a r; simpl; [done|].
  unfold backtrack_body. destruct (is_complete csp a) eqn:Hc.
  { intros [= <-]. split; [done|auto]. }
  destruct (order_values _ _ _) as [e|vals]; [done|].
  destruct (select csp a) as [var|] eqn:Hsel; [|done].
  apply select_from_Some in Hsel as [Hin Hvar].
  apply for_values_Return_extends; try done.
  intros a1 a2. by apply backtrack_restore.
Qed.

End generic_search.

Section generic_depth.
Context {C : Type} `{CSP C}.

Lemma length_filter_lt_weaken {T} (P Q : T → Prop) `{∀ x, Decision (P x)}
    `{∀ x, Decision (Q x)} (l : list T) x :
  (∀ y, Q y → P y) → x ∈ l → P x → ¬ Q x →
  (length (filter Q l) < length (filter P l))%nat.
Proof.
  intros HQP Hx HPx HQx.
  assert (∀ l', length (filter Q l') ≤ length (filter P l'))%nat as Hle.
  { induction l' as [|y l' IH]; [done|]. rewrite !filter_cons.
    destruct (decide (Q y)) as [HQ|HQ].
    - rewrite decide_True by auto. simpl. lia.
    - destruct (decide (P y)); simpl; lia. }
  induction l as [|y l IH]; [by apply elem_of_nil in Hx|].
  rewrite !filter_cons. apply elem_of_cons in Hx as [<-|Hx].
  - rewrite decide_False, decide_True by done. simpl. specialize (Hle l). lia.
  - specialize (IH Hx). destruct (decide (Q y)) as [HQ|HQ].
    + rewrite decide_True by auto. simpl. lia.
    + destruct (decide (P y)); simpl; lia.
Qed.

Lemma unbound_insert (csp : C) var val (a : gmap symbol Z) :
  var ∈ variables csp → a !! var = None →
  (unbound csp (<[var := val]> a) < unbound csp a)%nat.
Proof.
  intros Hin Hvar. unfold unbound.
  apply (length_filter_lt_weaken _ _ _ var); try done.
  - intros v Hv. destruct (decide (var = v)) as [<-|Hne]; [done|].
    by rewrite lookup_insert_ne in Hv.
  - by rewrite lookup_insert_eq.
Qed.

Lemma for_values_depth (rec : gmap symbol Z → outcome) (csp : C) var vals a :
  (∀ var val, inference csp var val = Some ∅) →
  (∀ a1 a2, rec a1 = ReturnNone a2 → a2 = a1) →
  (∀ a1, (unbound csp a1 < unbound csp a)%nat → rec a1 ≠ OutOfFuel) →
  a !! var = None → var ∈ variables csp →
  for_values rec csp var vals a ≠ OutOfFuel.
Proof.
  intros Hinf Hnone Hfuel Hvar Hin. induction vals as [|val vals IH]; simpl; [done|].
  destruct (is_consistent csp var val a) as [e|[|]]; [done| |done].
  rewrite Hinf, update_empty.
  pose proof (Hfuel (<[var:=val]> a) (unbound_insert _ _ _ _ Hin Hvar)) as Hne.
  destruct (rec (<[var:=val]> a)) as [r1|a3| |] eqn:Hr; try done.
  - case_decide as Hempty; [|done].
    subst r1. unfold undo, del. by rewrite lookup_empty.
  - apply Hnone in Hr as ->. unfold undo. rewrite del_insert_fresh by done.
    by rewrite keys_empty.
Qed.

(** X5: for any CSP that keeps the default inference, a call of
    [backtrack] needs no more nested activations than the number of
    unbound variables plus one. *)
Theorem backtrack_depth_bound (csp : C) depth (assignment : gmap symbol Z) :
  (∀ var val, inference csp var val = Some ∅) →
  (unbound csp assignment < depth)%nat →
  backtrack depth assignment csp ≠ OutOfFuel.
Proof.
  intros Hinf. revert assignment.
  induction depth as [|depth IH]; intros a Hdepth; [lia|]. simpl.
  unfold backtrack_body. destruct (is_complete csp a); [done|].
  destruct (order_values _ _ _) as [e|vals]; [done|].
  destruct (select csp a) as [var|] eqn:Hsel; [|done].
  apply select_from_Some in Hsel as [Hin Hvar].
  apply for_values_depth; try done.
  - intros a1 a2. by apply backtrack_restore.
  - intros a1 Ha1. apply IH. lia.
Qed.

End generic_depth.

(** * Completeness of the search on the N-Queens model *)

Lemma is_solution_placed n s : is_solution (Z.of_nat n) s → placed n n s.
Proof.
  intros (Hdom & Hrange & Hatt). split_and!.
  - intros v. rewrite Hdom. split; intros (i & Hi & ->); exists i; split; (lia || done).
  - assert (NQueensCSP.is_complete (model n) s = true) as Hc.
    { apply is_complete_model.
      - intros v Hv. apply elem_of_symbols_A. apply Hdom in Hv as (i & ? & ->).
        exists i. split; [lia|done].
      - intros v. rewrite Hdom, elem_of_symbols_A.
        split; intros (i & Hi & ->); exists i; split; (lia || done). }
    unfold NQueensCSP.is_complete, len in Hc. simpl in Hc.
    apply bool_decide_eq_true in Hc. lia.
  - intros i w Hw. by apply Hrange in Hw.
  - done.
Qed.

Lemma placed_lookup n k a i : placed n k a → (i < k)%nat → is_Some (a !! A i).
Proof. intros (Hdom & _) Hi. apply Hdom. eauto. Qed.

(** A full placement that extends [a] and puts the queen of column [k] on
    row [val] shows that [val] is consistent with [a]. *)
Lemma solution_consistent n k a s val :
  placed n n s → a ⊆ s → s !! A k = Some val →
  ∀ j w, (j < n)%nat → j ≠ k → a !! A j = Some w → no_attack k val j w.
Proof.
  intros (_ & _ & _ & Hatt) Hsub Hk j w _ Hjk Hj.
  apply (Hatt k j); [done|done|]. by eapply lookup_weaken.
Qed.

Lemma for_values_model_first n k (rec : gmap symbol Z → outcome) len m a :
  (k < n)%nat → placed n k a → (m + len = n)%nat →
  (∀ s w', placed n n s → a ⊆ s → s !! A k = Some w' → Z.of_nat m ≤ w') →
  (∀ a1, placed n (S k) a1 →
         (∃ r, rec a1 = Return r ∧ placed n n r ∧ a1 ⊆ r ∧ first_from n a1 r) ∨
         (rec a1 = ReturnNone a1 ∧ ∀ s, placed n n s → a1 ⊆ s → False)) →
  (∃ r, for_values rec (model n) (A k) (Z.of_nat <$> seq m len) a = Return r ∧
        placed n n r ∧ a ⊆ r ∧ first_from n a r) ∨
  (for_values rec (model n) (A k) (Z.of_nat <$> seq m len) a = ReturnNone a ∧
   ∀ s, placed n n s → a ⊆ s → False).
Proof.
  intros Hk Hp. revert m. induction len as [|len IH]; intros m Hm Hsmall Hrec.
  - right. split; [done|]. intros s Hs Hsub.
    destruct (placed_lookup n n s k Hs Hk) as [w' Hw'].
    pose proof (Hsmall s w' Hs Hsub Hw'). destruct Hs as (_ & _ & Hrange & _).
    apply Hrange in Hw'. lia.
  - simpl.
    change (list_fmap nat Z Z.of_nat (seq (S m) len)) with (Z.of_nat <$> seq (S m) len).
    pose proof (placed_None _ _ _ Hp) as Hnone.
    destruct (is_consistent_model n k (Z.of_nat m) a Hk) as (b & Hb & Hsafe).
    rewrite Hb.
    assert ((∀ s, placed n n s → a ⊆ s → s !! A k ≠ Some (Z.of_nat m)) →
            ∀ s w', placed n n s → a ⊆ s → s !! A k = Some w' → Z.of_nat (S m) ≤ w')
      as Hnext.
    { intros Hno s w' Hs Hsub Hw'. pose proof (Hsmall s w' Hs Hsub Hw').
      destruct (decide (w' = Z.of_nat m)) as [->|]; [|lia]. by destruct (Hno s Hs Hsub). }
    destruct b.
    + assert (placed n (S k) (<[A k:=Z.of_nat m]> a)) as Hp'.
      { apply placed_insert; try done; [lia|by apply Hsafe]. }
      unfold NQueensCSP.inference. rewrite update_empty.
      destruct (Hrec _ Hp') as [(r & -> & Hr & Hsub & Hfirst)|[-> Hno]].
      * left. exists r. rewrite decide_False.
        2:{ apply map_size_non_empty_iff. destruct Hr as (_ & -> & _). lia. }
        split_and!; [done|done| |].
        { trans (<[A k:=Z.of_nat m]> a); [by apply insert_subseteq|done]. }
        intros s Hs Hsa i w w' Hpre Hw Hw'.
        assert (r !! A k = Some (Z.of_nat m)) as Hrk.
        { eapply lookup_weaken; [|done]. apply lookup_insert_eq. }
        destruct (decide (i ≤ k)%nat) as [Hik|Hik].
        -- destruct (decide (i = k)) as [->|Hne].
           ++ rewrite Hrk in Hw. injection Hw as <-. by eapply Hsmall.
           ++ destruct (placed_lookup n k a i Hp ltac:(lia)) as [wa Hwa].
              assert (r !! A i = Some wa) as Hri.
              { apply (lookup_weaken a r); [done|].
                trans (<[A k:=Z.of_nat m]> a); [by apply insert_subseteq|done]. }
              assert (s !! A i = Some wa) as Hsi by (by apply (lookup_weaken a s)).
              rewrite Hri in Hw. rewrite Hsi in Hw'. simplify_eq. lia.
        -- apply (Hfirst s Hs) with (i := i); try done.
           apply insert_subseteq_l; [|done]. rewrite <- Hpre by lia. done.
      * unfold undo. rewrite del_insert_fresh by done. rewrite keys_empty. simpl.
        apply IH; [lia| |done]. apply Hnext. intros s Hs Hsub Hsk.
        apply (Hno s Hs). by apply insert_subseteq_l.
    + apply IH; [lia| |done]. apply Hnext. intros s Hs Hsub Hsk.
      assert (false = true) as Hf; [|done]. apply Hsafe.
      by apply (solution_consistent n k a s).
Qed.

Lemma backtrack_model_first n depth k a :
  (k ≤ n)%nat → placed n k a → (n - k < depth)%nat →
  (∃ r, backtrack depth a (model n) = Return r ∧
        placed n n r ∧ a ⊆ r ∧ first_from n a r) ∨
  (backtrack depth a (model n) = ReturnNone a ∧
   ∀ s, placed n n s → a ⊆ s → False).
Proof.
  revert k a. induction depth as [|depth IH]; intros k a Hk Hp Hdepth; [lia|].
  simpl. unfold backtrack_body.
  assert (is_complete (model n) a = bool_decide (k = n)) as ->.
  { simpl. unfold NQueensCSP.is_complete, len. simpl.
    destruct Hp as (_ & -> & _). apply bool_decide_ext. lia. }
  case_bool_decide as Hkn.
  - subst k. left. exists a. split_and!; try done.
    intros s Hs Hsub i w w' _ Hw Hw'.
    rewrite (lookup_weaken _ _ _ _ Hw Hsub) in Hw'. injection Hw' as <-. lia.
  - rewrite (placed_select n k) by (done || lia). unfold order_values.
    change (domains (model n)) with (NQueensCSP.domains (model n)).
    rewrite model_domains, decide_True by (apply elem_of_symbols_A; exists k; split; [lia|done]).
    apply (for_values_model_first n k _ n 0); [lia|done|lia| |].
    + intros s w' (_ & _ & Hrange & _) _ Hw'. apply Hrange in Hw'. lia.
    + intros a1 Hp1. apply (IH (S k)); [lia|done|lia].
Qed.

(** X6: with a depth of more than [N] activations, the search on the model
    returns [None] exactly when no valid placement of [N] queens exists;
    when one exists, the search returns one. *)
Theorem search_complete (N : Z) (csp : NQueensCSP.t) (depth : nat) :
  NQueensCSP.__init__ N = inr csp → (Z.to_nat N < depth)%nat →
  (backtracking_search depth csp = ReturnNone ∅ ↔ ¬ ∃ s, is_solution N s) ∧
  ((∃ s, is_solution N s) →
   ∃ r, backtracking_search depth csp = Return r ∧ is_solution N r).
Proof.
  intros [HN ->]%init_inr Hdepth. set (n := Z.to_nat N) in *.
  assert (N = Z.of_nat n) as HNn by lia. rewrite HNn. clearbody n. clear HNn HN.
  destruct (backtrack_model_first n depth 0 ∅) as [(r & Hr & Hp & _)|[Hnone Hno]];
    [lia|apply placed_empty|lia| |]; unfold backtracking_search.
  - rewrite Hr. split.
    + split; [done|]. intros []. exists r. by apply placed_is_solution.
    + intros _. exists r. split; [done|]. by apply placed_is_solution.
  - rewrite Hnone. split.
    + split; [|done]. intros _ [s Hs]. apply (Hno s); [by apply is_solution_placed|].
      apply map_empty_subseteq.
    + intros [s Hs]. destruct (Hno s); [by apply is_solution_placed|].
      apply map_empty_subseteq.
Qed.

Lemma search_complete_witness :
  backtracking_search 3 (model 2) = ReturnNone ∅ ↔ ¬ ∃ s, is_solution 2 s.
Proof.
  apply (proj1 (search_complete 2 (model 2) 3 eq_refl ltac:(vm_compute; lia))).
Defined.

(** X7: the placement the search returns is the first one in its order of
    enumeration (columns in order, rows increasing): at the first column
    where any other valid placement differs from it, the returned
    placement has the smaller row. *)
Theorem search_first_solution (N : Z) (csp : NQueensCSP.t) (depth : nat)
    (result : gmap symbol Z) :
  NQueensCSP.__init__ N = inr csp →
  backtracking_search depth csp = Return result →
  ∀ s, is_solution N s →
       ∀ (i : nat) (w w' : Z),
         (∀ j, (j < i)%nat → result !! A j = s !! A j) →
         result !! A i = Some w → s !! A i = Some w' → w ≤ w'.
Proof.
  intros [HN ->]%init_inr Hr s Hs. set (n := Z.to_nat N) in *.
  assert (N = Z.of_nat n) as HNn by lia. rewrite HNn in Hs.
  assert (backtrack (depth + S n) ∅ (model n) = Return result) as Hr'.
  { eapply backtrack_mono; [|done..]. lia. }
  destruct (backtrack_model_first n (depth + S n) 0 ∅)
    as [(r & Hr'' & _ & _ & Hfirst)|[Hnone _]]; [lia|apply placed_empty|lia| |].
  - rewrite Hr' in Hr''. injection Hr'' as <-.
    apply Hfirst; [by apply is_solution_placed|apply map_empty_subseteq].
  - by rewrite Hr' in Hnone.
Qed.

Lemma search_first_solution_witness :
  is_solution 4 (<[A 0 := 2]> (<[A 1 := 0]> (<[A 2 := 3]> {[A 3 := 1]}))) ∧
  backtracking_search 5 (model 4)
  = Return (<[A 0 := 1]> (<[A 1 := 3]> (<[A 2 := 0]> {[A 3 := 2]}))) ∧
  1 ≤ 2.
Proof.
  assert (is_solution 4 (<[A 0 := 2]> (<[A 1 := 0]> (<[A 2 := 3]> {[A 3 := 1]})))) as Hs.
  { assert (placed 4 1 (<[A 0 := 2]> ∅)) as Hp.
    { apply placed_insert; [apply placed_empty|lia| |lia].
      intros j w _ _ Hw. rewrite lookup_empty in Hw. discriminate Hw. }
    destruct (backtrack_model 4 4 1 _ ltac:(lia) Hp ltac:(lia)) as [(r & Hr & Hpr)|Hnone].
    - vm_compute in Hr. injection Hr as <-. apply (placed_is_solution 4), Hpr.
    - vm_compute in Hnone. discriminate Hnone. }
  assert (backtracking_search 5 (model 4)
          = Return (<[A 0 := 1]> (<[A 1 := 3]> (<[A 2 := 0]> {[A 3 := 2]})))) as Hr.
  { vm_compute. reflexivity. }
  split; [exact Hs|]. split; [exact Hr|].
  apply (search_first_solution 4 (model 4) 5 _ eq_refl Hr _ Hs 0%nat 1 2).
  - intros j Hj. lia.
  - vm_compute. reflexivity.
  - vm_compute. reflexivity.
Defined.

(** * Further properties of the consistency check *)

(** X8: for a symbol that is not a variable of the model,
    [self._constraints[var]] raises [KeyError]. *)
Theorem is_consistent_KeyError (N : Z) (csp : NQueensCSP.t) (var : symbol) (value : Z)
    (assignment : gmap symbol Z) :
  NQueensCSP.__init__ N = inr csp → var ∉ NQueensCSP.variables csp →
  NQueensCSP.is_consistent csp var value assignment = inl KeyError.
Proof.
  intros [HN ->]%init_inr Hvar. unfold NQueensCSP.is_consistent.
  by rewrite model_constraints_None.
Qed.

Lemma is_consistent_KeyError_witness :
  NQueensCSP.is_consistent (model 4) col_diff 0 ∅ = inl KeyError.
Proof.
  apply (is_consistent_KeyError 4 (model 4) col_diff 0 ∅ eq_refl).
  vm_compute. intros Hin. repeat (apply elem_of_cons in Hin as [Hin|Hin]; [discriminate Hin|]).
  by apply elem_of_nil in Hin.
Defined.

(** X9: the answer of [is_consistent] for a variable depends only on the
    bindings of the other variables of the model: a binding of the
    variable itself, or of a symbol outside the model, does not matter. *)
Theorem is_consistent_frame (N : Z) (csp : NQueensCSP.t) (k : nat) (value : Z)
    (a a' : gmap symbol Z) :
  NQueensCSP.__init__ N = inr csp → Z.of_nat k < N →
  (∀ j : nat, Z.of_nat j < N → j ≠ k → a !! A j = a' !! A j) →
  NQueensCSP.is_consistent csp (A k) value a = NQueensCSP.is_consistent csp (A k) value a'.
Proof.
  intros [HN ->]%init_inr Hk Hsame. set (n := Z.to_nat N) in *.
  destruct (is_consistent_model n k value a ltac:(lia)) as (b & -> & Hb).
  destruct (is_consistent_model n k value a' ltac:(lia)) as (b' & -> & Hb').
  f_equal. apply eq_bool_prop_intro. rewrite !Is_true_true, Hb, Hb'.
  split; intros Hall j w Hj Hjk Hw; apply Hall; try done.
  - rewrite Hsame by (done || lia). done.
  - rewrite <- Hsame by (done || lia). done.
Qed.

Lemma is_consistent_frame_witness :
  NQueensCSP.is_consistent (model 4) (A 1) 3 {[A 0 := 1]}
  = NQueensCSP.is_consistent (model 4) (A 1) 3 (<[A 1 := 0]> (<[col_diff := 7]> {[A 0 := 1]})).
Proof.
  apply (is_consistent_frame 4 (model 4) 1 3 _ _ eq_refl ltac:(lia)).
  intros j Hj Hne.
  rewrite lookup_insert_ne by (apply A_ne; intros Heq; apply Hne; symmetry; exact Heq).
  rewrite lookup_insert_ne; [reflexivity|]. discriminate.
Defined.

(** X10: a candidate that is consistent with an assignment is consistent
    with every part of it: removing bindings never turns the answer to
    false. *)
Theorem is_consistent_anti_monotone (N : Z) (csp : NQueensCSP.t) (k : nat) (value : Z)
    (a a' : gmap symbol Z) :
  NQueensCSP.__init__ N = inr csp → Z.of_nat k < N → a ⊆ a' →
  NQueensCSP.is_consistent csp (A k) value a' = inr true →
  NQueensCSP.is_consistent csp (A k) value a = inr true.
Proof.
  intros [HN ->]%init_inr Hk Hsub. set (n := Z.to_nat N) in *.
  destruct (is_consistent_model n k value a ltac:(lia)) as (b & -> & Hb).
  destruct (is_consistent_model n k value a' ltac:(lia)) as (b' & -> & Hb').
  intros [= ->]. f_equal. apply Hb. intros j w Hj Hjk Hw.
  apply (proj1 Hb' eq_refl); try done. by eapply lookup_weaken.
Qed.

Lemma is_consistent_anti_monotone_witness :
  NQueensCSP.is_consistent (model 4) (A 2) 0 {[A 0 := 1]} = inr true.
Proof.
  apply (is_consistent_anti_monotone 4 (model 4) 2 0 {[A 0 := 1]}
           (<[A 0 := 1]> {[A 1 := 3]}) eq_refl ltac:(lia)).
  - apply insert_mono, map_empty_subseteq.
  - vm_compute. reflexivity.
Defined.

(** * Size and contents of the constraint dictionaries *)

Lemma length_NoDup_equiv {T} (l k : list T) :
  NoDup l → NoDup k → (∀ x, x ∈ l ↔ x ∈ k) → length l = length k.
Proof. intros Hl Hk Heq. apply Permutation_length. by apply NoDup_Permutation. Qed.

Lemma length_bind_pair {B T} (f g : B → T) (js : list B) :
  length (js ≫= λ j, [f j; g j]) = (2 * length js)%nat.
Proof.
  induction js as [|j js IH]; [reflexivity|].
  rewrite bind_cons, length_app, IH. simpl. lia.
Qed.

Lemma NoDup_bind_pair {B T} (f g : B → T) (js : list B) :
  NoDup js →
  (∀ x y, x ∈ js → y ∈ js → f x = f y → x = y) →
  (∀ x y, x ∈ js → y ∈ js → g x = g y → x = y) →
  (∀ x y, f x ≠ g y) →
  NoDup (js ≫= λ j, [f j; g j]).
Proof.
  intros Hjs Hf Hg Hfg. apply NoDup_bind; [| |done].
  - intros x1 x2 y Hx1 Hx2 Hy1 Hy2.
    rewrite !elem_of_cons, elem_of_nil in Hy1, Hy2.
    destruct Hy1 as [->|[->|[]]], Hy2 as [Hy|[Hy|[]]]; auto.
    + by destruct (Hfg x1 x2).
    + symmetry in Hy. by destruct (Hfg x2 x1).
  - intros x _. apply NoDup_cons. split; [|apply NoDup_singleton].
    intros Hx%list_elem_of_singleton. by destruct (Hfg x x).
Qed.

Lemma diffRow_on_inj i j i' j' :
  diffRow_on (A i) (A j) = diffRow_on (A i') (A j') → i = i' ∧ j = j'.
Proof. unfold diffRow_on. intros Heq. split; apply (inj A); congruence. Qed.

Lemma diffDiag_on_inj i j d i' j' d' :
  diffDiag_on (A i) (A j) d = diffDiag_on (A i') (A j') d' → i = i' ∧ j = j'.
Proof. unfold diffDiag_on. intros Heq. split; apply (inj A); congruence. Qed.

Lemma elem_of_others n k j : (k < n)%nat → j ∈ others n k ↔ (j < n)%nat ∧ j ≠ k.
Proof. intros Hk. unfold others. rewrite elem_of_app, !elem_of_seq. lia. Qed.

Lemma NoDup_others n k : NoDup (others n k).
Proof.
  unfold others. apply NoDup_app. split_and!; [apply NoDup_seq| |apply NoDup_seq].
  intros j. rewrite !elem_of_seq. lia.
Qed.

Lemma length_others n k : (k < n)%nat → length (others n k) = (n - 1)%nat.
Proof. intros Hk. unfold others. rewrite length_app, !length_seq. lia. Qed.

(** X11: the entry of each variable in the constraint index holds
    [2 (N - 1)] constraints, a row and a diagonal constraint for each of
    the other [N - 1] columns. *)
Theorem index_entry_size (N : Z) (csp : NQueensCSP.t) (k : nat) :
  NQueensCSP.__init__ N = inr csp → Z.of_nat k < N →
  ∃ l, NQueensCSP._constraints csp !! A k = Some l ∧
       Z.of_nat (length l) = 2 * (N - 1) ∧
       ∀ j : nat, Z.of_nat j < N → j ≠ k → row_with k j ∈ l ∧ diag_with k j ∈ l.
Proof.
  intros [HN ->]%init_inr Hk'. set (n := Z.to_nat N) in *.
  assert (k < n)%nat as Hk by lia.
  destruct (model_constraints_Some n k Hk) as (l & Hl & Hnd & Hin).
  exists l. split; [done|]. split.
  - assert (length l = length (others n k ≫= λ j, [row_with k j; diag_with k j])) as ->.
    { apply length_NoDup_equiv; [done| |].
      - apply NoDup_bind_pair; [apply NoDup_others| | |].
        + intros x y _ _ [? ?]%diffRow_on_inj. lia.
        + intros x y _ _ [? ?]%diffDiag_on_inj. lia.
        + intros x y. unfold row_with, diag_with, diffRow_on, diffDiag_on. discriminate.
      - intros c. rewrite Hin, list_elem_of_bind. split.
        + intros (i & j & Hij & Hkij & Hc). destruct Hkij as [<- | <-].
          * exists j. split; [|apply elem_of_others; lia].
            unfold row_with, diag_with.
            replace (k `min` j)%nat with k by lia. replace (k `max` j)%nat with j by lia.
            rewrite !elem_of_cons. tauto.
          * exists i. split; [|apply elem_of_others; lia].
            unfold row_with, diag_with.
            replace (k `min` i)%nat with i by lia. replace (k `max` i)%nat with k by lia.
            rewrite !elem_of_cons. tauto.
        + intros (j & Hc & [Hj Hjk]%elem_of_others); [|done].
          exists (k `min` j)%nat, (k `max` j)%nat. split; [lia|]. split; [lia|].
          unfold row_with, diag_with in Hc. rewrite !elem_of_cons, elem_of_nil in Hc.
          tauto. }
    rewrite length_bind_pair, length_others by done. lia.
  - intros j Hj Hjk.
    split; apply Hin; exists (k `min` j)%nat, (k `max` j)%nat;
      (split; [lia|]); (split; [lia|]); auto.
Qed.

Lemma index_entry_size_witness :
  ∃ l, NQueensCSP._constraints (model 8) !! A 0 = Some l ∧ Z.of_nat (length l) = 14.
Proof.
  destruct (index_entry_size 8 (model 8) 0 eq_refl ltac:(lia)) as (l & Hl & Hlen & _).
  exists l. split; [exact Hl|exact Hlen].
Defined.

Lemma elem_of_column_pairs n i j : (i, j) ∈ column_pairs n ↔ (i < j < n)%nat.
Proof.
  unfold column_pairs. rewrite list_elem_of_bind. split.
  - intros (j' & (i' & [= -> ->] & Hi%elem_of_seq)%list_elem_of_fmap & Hj%elem_of_seq). lia.
  - intros Hij. exists j. split; [|apply elem_of_seq; lia].
    apply list_elem_of_fmap. exists i. split; [done|]. apply elem_of_seq. lia.
Qed.

Lemma NoDup_column_pairs n : NoDup (column_pairs n).
Proof.
  unfold column_pairs. apply NoDup_bind; [| |apply NoDup_seq].
  - intros j1 j2 [i j] _ _ (i1 & [= -> ->] & _)%list_elem_of_fmap
      (i2 & [= _ ->] & _)%list_elem_of_fmap. done.
  - intros j _. apply NoDup_fmap_2; [|apply NoDup_seq]. by intros i1 i2 [= ->].
Qed.

Lemma length_column_pairs n : (2 * length (column_pairs n) = n * (n - 1))%nat.
Proof.
  unfold column_pairs. induction n as [|n IH]; [done|].
  rewrite seq_S, bind_app, length_app, bind_singleton, length_fmap, length_seq. simpl.
  nia.
Qed.

(** X12: the property [constraints] lists every constraint of the model
    once: a row constraint and a diagonal constraint for each pair of
    columns [i < j], [N (N - 1)] constraints in all. *)
Theorem constraints_property (N : Z) (csp : NQueensCSP.t) :
  NQueensCSP.__init__ N = inr csp →
  NoDup (NQueensCSP.constraints csp) ∧
  (∀ c, c ∈ NQueensCSP.constraints csp ↔
        ∃ i j : nat, (i < j)%nat ∧ Z.of_nat j < N ∧
                     (c = diffRow_on (A i) (A j) ∨
                      c = diffDiag_on (A i) (A j) (Z.of_nat j - Z.of_nat i))) ∧
  Z.of_nat (length (NQueensCSP.constraints csp)) = N * (N - 1).
Proof.
  intros [HN ->]%init_inr. set (n := Z.to_nat N) in *.
  assert (NoDup (NQueensCSP.constraints (model n))) as Hnd.
  { unfold NQueensCSP.constraints.
    apply (map_fold_weak_ind (λ acc (_ : gmap symbol (list Constraint)), NoDup acc)).
    - apply NoDup_nil_2.
    - intros v l m acc _ Hacc. by apply NoDup_set_update. }
  assert (∀ c, c ∈ NQueensCSP.constraints (model n) ↔
               ∃ i j : nat, (i < j < n)%nat ∧
                            (c = diffRow_on (A i) (A j) ∨
                             c = diffDiag_on (A i) (A j) (Z.of_nat j - Z.of_nat i)))
    as Hin.
  { intros c. rewrite elem_of_constraints. split.
    - intros (v & l & Hl & Hc).
      destruct (model_constraints_key _ _ _ Hl) as (k & Hk & ->).
      destruct (model_constraints_Some n k Hk) as (l' & Hl' & _ & Hin').
      rewrite Hl in Hl'. injection Hl' as <-.
      apply Hin' in Hc as (i & j & Hij & _ & Hc). eauto.
    - intros (i & j & Hij & Hc).
      destruct (model_constraints_Some n i ltac:(lia)) as (l & Hl & _ & Hin').
      exists (A i), l. split; [done|]. apply Hin'. exists i, j. auto. }
  split; [done|]. split.
  - intros c. rewrite Hin. split.
    + intros (i & j & Hij & Hc). exists i, j. split_and!; (lia || done).
    + intros (i & j & Hij & Hj & Hc). exists i, j. split; [lia|done].
  - assert (length (NQueensCSP.constraints (model n))
            = length (column_pairs n ≫= λ ij,
                        [diffRow_on (A ij.1) (A ij.2);
                         diffDiag_on (A ij.1) (A ij.2) (Z.of_nat ij.2 - Z.of_nat ij.1)]))
      as ->.
    { apply length_NoDup_equiv; [done| |].
      - apply NoDup_bind_pair; [apply NoDup_column_pairs| | |].
        + intros [i j] [i' j'] _ _ [? ?]%diffRow_on_inj. simpl in *. congruence.
        + intros [i j] [i' j'] _ _ [? ?]%diffDiag_on_inj. simpl in *. congruence.
        + intros x y. unfold diffRow_on, diffDiag_on. discriminate.
      - intros c. rewrite Hin, list_elem_of_bind. split.
        + intros (i & j & Hij & Hc). exists (i, j). simpl.
          split; [|by apply elem_of_column_pairs].
          rewrite !elem_of_cons. tauto.
        + intros ([i j] & Hc & Hij%elem_of_column_pairs). exists i, j. simpl in Hc.
          rewrite !elem_of_cons, elem_of_nil in Hc. tauto. }
    rewrite length_bind_pair. pose proof (length_column_pairs n). nia.
Qed.

Lemma constraints_property_witness :
  Z.of_nat (length (NQueensCSP.constraints (model 4))) = 4 * (4 - 1).
Proof. apply (proj2 (proj2 (constraints_property 4 (model 4) eq_refl))). Defined.

(** * The dictionaries built by the constructor *)

(** X13: the model has the [N] distinct variables [A0 .. A(N-1)]; the
    dictionaries [domains] and [_constraints] have exactly these
    variables as keys, and the domain of each is [0 .. N-1]. *)
Theorem init_dictionaries (N : Z) (csp : NQueensCSP.t) :
  NQueensCSP.__init__ N = inr csp →
  NQueensCSP.size csp = N ∧
  NQueensCSP.variables csp = A <$> seq 0 (Z.to_nat N) ∧
  NoDup (NQueensCSP.variables csp) ∧
  (∀ v, v ∈ NQueensCSP.variables csp →
        NQueensCSP.domains csp !! v = Some (Z.of_nat <$> seq 0 (Z.to_nat N)) ∧
        is_Some (NQueensCSP._constraints csp !! v)) ∧
  (∀ v, v ∉ NQueensCSP.variables csp →
        NQueensCSP.domains csp !! v = None ∧
        NQueensCSP._constraints csp !! v = None) ∧
  (∀ v d w, NQueensCSP.domains csp !! v = Some d → w ∈ d → 0 ≤ w < N).
Proof.
  intros [HN ->]%init_inr. set (n := Z.to_nat N) in *. split_and!.
  - simpl. lia.
  - done.
  - apply NoDup_symbols_A.
  - intros v Hv. split.
    + rewrite model_domains. by rewrite decide_True.
    + apply elem_of_symbols_A in Hv as (k & Hk & ->).
      destruct (model_constraints_Some n k Hk) as (l & -> & _). eauto.
  - intros v Hv. split.
    + rewrite model_domains. by rewrite decide_False.
    + by apply model_constraints_None.
  - intros v d w. rewrite model_domains. case_decide; [|done].
    intros [= <-] (i & -> & Hi%elem_of_seq)%list_elem_of_fmap. lia.
Qed.

Lemma init_dictionaries_witness :
  NQueensCSP.domains (model 8) !! A 0 = Some (Z.of_nat <$> seq 0 8) ∧
  is_Some (NQueensCSP._constraints (model 8) !! A 0).
Proof.
  destruct (init_dictionaries 8 (model 8) eq_refl) as (_ & _ & _ & Hkeys & _).
  apply (Hkeys (A 0)). apply list_elem_of_here.
Defined.

(** * The board that [show] draws *)

Lemma omap_fmap_compose {T U V} (f : U → option V) (g : T → U) (l : list T) :
  omap f (g <$> l) = omap (λ x, f (g x)) l.
Proof. induction l as [|x l IH]; [done|]. csimpl. by rewrite IH. Qed.

Lemma show_locations_model n (a : gmap symbol Z) :
  show_locations (model n) a = omap (λ i, (λ w, (i, w)) <$> a !! A i) (seq 0 n).
Proof.
  unfold show_locations. simpl. rewrite symbols_A, imap_fmap.
  rewrite (imap_ext _ (λ i _, (i, A i))).
  - rewrite imap_seq_0, length_seq. by rewrite omap_fmap_compose.
  - intros i x Hx. apply lookup_seq in Hx as [-> _]. done.
Qed.

Lemma omap_columns (a : gmap symbol Z) (l : list nat) :
  (omap (λ i, (λ w, (i, w)) <$> a !! A i) l).*1 = filter (λ i, is_Some (a !! A i)) l.
Proof.
  induction l as [|i l IH]; [done|]. rewrite filter_cons.
  destruct (decide (is_Some (a !! A i))) as [[w Hw]|Hn]; csimpl.
  - rewrite Hw. csimpl. by rewrite IH.
  - destruct (a !! A i) eqn:Hi; [destruct Hn; eauto|]. csimpl. done.
Qed.

Lemma filter_all {T} (P : T → Prop) `{∀ x, Decision (P x)} (l : list T) :
  (∀ x, x ∈ l → P x) → filter P l = l.
Proof.
  induction l as [|x l IH]; intros Hall; [done|]. rewrite filter_cons.
  rewrite decide_True by apply Hall, list_elem_of_here.
  f_equal. apply IH. intros y Hy. by apply Hall, list_elem_of_further.
Qed.

(** X14: the locations that [show] hands to [displayBoard] are the bound
    columns of the assignment, in increasing order, each with its row;
    unbound columns and bindings of other symbols are left out. *)
Theorem show_locations_spec (N : Z) (csp : NQueensCSP.t) (assignment : gmap symbol Z) :
  NQueensCSP.__init__ N = inr csp →
  (show csp assignment).2 = N ∧
  (show csp assignment).1.*1
  = filter (λ i, is_Some (assignment !! A i)) (seq 0 (Z.to_nat N)) ∧
  ∀ (i : nat) (w : Z),
    (i, w) ∈ (show csp assignment).1 ↔ Z.of_nat i < N ∧ assignment !! A i = Some w.
Proof.
  intros [HN ->]%init_inr. set (n := Z.to_nat N) in *.
  unfold show. cbn [fst snd]. rewrite show_locations_model. split_and!.
  - simpl. lia.
  - apply omap_columns.
  - intros i w. rewrite list_elem_of_omap. split.
    + intros (i' & Hi'%elem_of_seq & Hw). destruct (assignment !! A i') eqn:E; [|done].
      injection Hw as -> ->. split; [lia|done].
    + intros [Hi Hw]. exists i. split; [apply elem_of_seq; lia|]. by rewrite Hw.
Qed.

Lemma show_locations_spec_witness :
  (show (model 4) (<[A 2 := 0]> {[A 0 := 1]})).1.*1
  = filter (λ i, is_Some ((<[A 2 := 0]> {[A 0 := 1]} : gmap symbol Z) !! A i)) (seq 0 4).
Proof. apply (proj1 (proj2 (show_locations_spec 4 (model 4) _ eq_refl))). Defined.

(** X15: for an assignment returned by the search, [show] draws one
    queen in every column, in column order, inside the board, and no two
    of the drawn queens attack each other. *)
Theorem show_search_result (N : Z) (csp : NQueensCSP.t) (depth : nat)
    (result : gmap symbol Z) :
  NQueensCSP.__init__ N = inr csp →
  backtracking_search depth csp = Return result →
  (show csp result).1.*1 = seq 0 (Z.to_nat N) ∧
  (∀ i w, (i, w) ∈ (show csp result).1 → 0 ≤ w < (show csp result).2) ∧
  (∀ i wi j wj,
     (i, wi) ∈ (show csp result).1 → (j, wj) ∈ (show csp result).1 → i ≠ j →
     wi ≠ wj ∧ Z.abs (wi - wj) ≠ Z.abs (Z.of_nat i - Z.of_nat j)).
Proof.
  intros Hinit Hr.
  destruct (show_locations_spec N csp result Hinit) as (Hsize & Hcols & Hin).
  apply init_inr in Hinit as [HN ->]. set (n := Z.to_nat N) in *.
  apply search_model_Return in Hr as (Hdom & _ & Hrange & Hatt). split_and!.
  - rewrite Hcols. apply filter_all. intros i Hi%elem_of_seq. apply Hdom.
    exists i. split; [lia|done].
  - intros i w [Hi Hw]%Hin. rewrite Hsize. apply Hrange in Hw. lia.
  - intros i wi j wj [_ Hi]%Hin [_ Hj]%Hin Hij. by apply (Hatt i j).
Qed.

Lemma show_search_result_witness :
  (show (model 4) (<[A 0 := 1]> (<[A 1 := 3]> (<[A 2 := 0]> {[A 3 := 2]})))).1.*1
  = seq 0 4.
Proof.
  apply (show_search_result 4 (model 4) 5 _ eq_refl). vm_compute. reflexivity.
Defined.

(** * What the undo statements do to inferred bindings *)

Lemma del_all_missing ks (d : gmap symbol Z) k :
  k ∈ ks → d !! k = None → del_all ks d = inl KeyError.
Proof.
  revert d. induction ks as [|k0 ks IH]; intros d Hk Hd; [by apply elem_of_nil in Hk|].
  cbn [del_all]. unfold del. destruct (d !! k0) as [w|] eqn:Hk0; [|done].
  apply elem_of_cons in Hk as [->|Hk]; [congruence|].
  apply IH; [done|]. rewrite lookup_delete_ne; [done|]. intros ->. congruence.
Qed.

(** X16: when the inferred bindings do not mention [var], the undo
    statements leave the assignment without [var] and without every
    inferred variable: a binding that the assignment already had for an
    inferred variable is lost, not restored. *)
Theorem undo_removes_inferred var val (inferences assignment : gmap symbol Z) :
  assignment !! var = None → inferences !! var = None →
  undo var (Some inferences) (update inferences (<[var := val]> assignment))
  = inr (assignment ∖ inferences).
Proof.
  intros Hvar Hinf. unfold undo, del, update.
  rewrite lookup_union_r, lookup_insert_eq by done.
  destruct (del_all_bound (keys inferences)
              (delete var (inferences ∪ <[var := val]> assignment)))
    as (d' & -> & Hd').
  - apply NoDup_keys.
  - intros k Hk%elem_of_keys. destruct Hk as [w Hw].
    rewrite lookup_delete_ne by (intros ->; congruence).
    exists w. by apply lookup_union_Some_l.
  - f_equal. apply map_eq. intros x. rewrite Hd', lookup_difference. case_decide as Hx.
    + apply elem_of_keys in Hx as [w ->]. done.
    + assert (inferences !! x = None) as Hix.
      { destruct (inferences !! x) eqn:E; [|done]. destruct Hx. apply elem_of_keys. eauto. }
      rewrite Hix. destruct (decide (x = var)) as [->|Hxv].
      * by rewrite lookup_delete_eq.
      * rewrite lookup_delete_ne by done. rewrite lookup_union_r by done.
        by rewrite lookup_insert_ne.
Qed.

Lemma undo_removes_inferred_witness :
  undo (A 1) (Some {[A 0 := 5]}) (update {[A 0 := 5]} (<[A 1 := 3]> {[A 0 := 1]}))
  = inr (({[A 0 := 1]} : gmap symbol Z) ∖ {[A 0 := 5]}).
Proof.
  apply (undo_removes_inferred (A 1) 3 {[A 0 := 5]} {[A 0 := 1]}); vm_compute; reflexivity.
Defined.

(** X17: when the inferred bindings mention [var] itself, [var] is
    deleted twice and the second deletion raises [KeyError]. *)
Theorem undo_inferred_var var val (inferences assignment : gmap symbol Z) :
  is_Some (inferences !! var) →
  undo var (Some inferences) (update inferences (<[var := val]> assignment))
  = inl KeyError.
Proof.
  intros [w Hw]. unfold undo, del, update.
  rewrite (lookup_union_Some_l _ _ _ _ Hw).
  apply (del_all_missing _ _ var).
  - apply elem_of_keys. eauto.
  - apply lookup_delete_eq.
Qed.

Lemma undo_inferred_var_witness :
  undo (A 0) (Some {[A 0 := 5]}) (update {[A 0 := 5]} (<[A 0 := 3]> ∅)) = inl KeyError.
Proof.
  apply (undo_inferred_var (A 0) 3 {[A 0 := 5]} ∅). vm_compute. eexists. reflexivity.
Defined.

(** * The two constraint generators *)

Lemma subs_diffRow_gen (r0 r1 : expr) :
  subs (<[rows !!! 0%nat := r0]> (<[rows !!! 1%nat := r1]> ∅)) diffRow
  = constraint "diffRow" (Ne r0 r1).
Proof. vm_compute. reflexivity. Qed.

Lemma subs_diffDiag_gen (r0 r1 rd : expr) :
  subs (<[rows !!! 0%nat := r0]> (<[rows !!! 1%nat := r1]> (<[col_diff := rd]> ∅))) diffDiag
  = constraint "diffDiag" (And (Ne r0 (Add r1 rd)) (Ne r0 (Sub r1 rd))).
Proof. vm_compute. reflexivity. Qed.

(** X18: with both rows bound, [diffRow] is false exactly when the rows
    are equal, and [diffDiag] with column distance [d] is false exactly
    when the rows differ by [d] in absolute value; both are true
    otherwise, and both are symmetric in the two rows. With the second
    row still a symbol, one that is not among the symbols being replaced,
    neither of them is false. *)
Theorem diffRow_diffDiag_bound (x0 x1 d : Z) (s : symbol) :
  s ∉ [rows !!! 0%nat; rows !!! 1%nat; col_diff] →
  let row r0 r1 :=
    evaluate (expression
      (subs (<[rows !!! 0%nat := r0]> (<[rows !!! 1%nat := r1]> ∅)) diffRow)) in
  let diag r0 r1 :=
    evaluate (expression
      (subs (<[rows !!! 0%nat := r0]> (<[rows !!! 1%nat := r1]>
               (<[col_diff := Int d]> ∅))) diffDiag)) in
  row (Int x0) (Int x1) = (if decide (x0 = x1) then IsFalse else IsTrue) ∧
  diag (Int x0) (Int x1)
  = (if decide (Z.abs (x0 - x1) = Z.abs d) then IsFalse else IsTrue) ∧
  row (Int x0) (Int x1) = row (Int x1) (Int x0) ∧
  diag (Int x0) (Int x1) = diag (Int x1) (Int x0) ∧
  row (Int x0) (Sym s) = Indeterminate ∧
  diag (Int x0) (Sym s) = Indeterminate.
Proof.
  intros _ row diag. subst row diag. cbv beta.
  rewrite !subs_diffRow_gen, !subs_diffDiag_gen. simpl.
  split_and!; repeat case_decide; try done; lia.
Qed.

Lemma diffRow_diffDiag_bound_witness :
  evaluate (expression
    (subs (<[rows !!! 0%nat := Int 0]> (<[rows !!! 1%nat := Int 2]>
             (<[col_diff := Int 2]> ∅))) diffDiag)) = IsFalse ∧
  evaluate (expression
    (subs (<[rows !!! 0%nat := Int 0]> (<[rows !!! 1%nat := Sym (A 2)]>
             (<[col_diff := Int 2]> ∅))) diffDiag)) = Indeterminate.
Proof.
  assert (A 2 ∉ [rows !!! 0%nat; rows !!! 1%nat; col_diff]) as Hfresh.
  { vm_compute. intros Hin.
    repeat (apply elem_of_cons in Hin as [Hin|Hin]; [discriminate Hin|]).
    apply elem_of_nil in Hin. destruct Hin. }
  destruct (diffRow_diffDiag_bound 0 2 2 (A 2) Hfresh) as (_ & Hdiag & _ & _ & _ & Hpartial).
  split; [exact Hdiag|exact Hpartial].
Defined.

(** * Validity in terms of the consistency check *)

(** X19: for an assignment that binds exactly the variables of the model,
    the queens are pairwise non-attacking exactly when every binding
    passes [is_consistent] against the whole assignment. *)
Theorem valid_iff_all_consistent (N : Z) (csp : NQueensCSP.t) (assignment : gmap symbol Z) :
  NQueensCSP.__init__ N = inr csp →
  (∀ v, is_Some (assignment !! v) ↔ v ∈ NQueensCSP.variables csp) →
  (∀ (i j : nat) (wi wj : Z),
     i ≠ j → assignment !! A i = Some wi → assignment !! A j = Some wj →
     wi ≠ wj ∧ Z.abs (wi - wj) ≠ Z.abs (Z.of_nat i - Z.of_nat j)) ↔
  (∀ v w, assignment !! v = Some w →
          NQueensCSP.is_consistent csp v w assignment = inr true).
Proof.
  intros [HN ->]%init_inr Hdom. set (n := Z.to_nat N) in *. simpl in Hdom. split.
  - intros Hatt v w Hw.
    destruct (proj1 (elem_of_symbols_A n v)) as (k & Hk & ->); [apply Hdom; eauto|].
    destruct (is_consistent_model n k w assignment Hk) as (b & -> & Hb).
    f_equal. apply Hb. intros j wj Hj Hjk Hwj. by apply (Hatt k j).
  - intros Hall i j wi wj Hij Hi Hj.
    assert (i < n)%nat as Hin.
    { destruct (proj1 (elem_of_symbols_A n (A i))) as (k & Hk & Heq); [apply Hdom; eauto|].
      apply (inj A) in Heq. lia. }
    assert (j < n)%nat as Hjn.
    { destruct (proj1 (elem_of_symbols_A n (A j))) as (k & Hk & Heq); [apply Hdom; eauto|].
      apply (inj A) in Heq. lia. }
    destruct (is_consistent_model n i wi assignment Hin) as (b & Hb & Hsafe).
    rewrite (Hall _ _ Hi) in Hb. injection Hb as <-.
    by apply (proj1 Hsafe eq_refl j wj).
Qed.

Lemma valid_iff_all_consistent_witness :
  ((∀ (i j : nat) (wi wj : Z),
      i ≠ j →
      (<[A 0 := 1]> (<[A 1 := 3]> (<[A 2 := 0]> {[A 3 := 2]})) : gmap symbol Z) !! A i
      = Some wi →
      (<[A 0 := 1]> (<[A 1 := 3]> (<[A 2 := 0]> {[A 3 := 2]})) : gmap symbol Z) !! A j
      = Some wj →
      wi ≠ wj ∧ Z.abs (wi - wj) ≠ Z.abs (Z.of_nat i - Z.of_nat j)) ↔
   (∀ v w,
      (<[A 0 := 1]> (<[A 1 := 3]> (<[A 2 := 0]> {[A 3 := 2]})) : gmap symbol Z) !! v
      = Some w →
      NQueensCSP.is_consistent (model 4) v w
        (<[A 0 := 1]> (<[A 1 := 3]> (<[A 2 := 0]> {[A 3 := 2]}))) = inr true)) ∧
  NQueensCSP.is_consistent (model 4) (A 2) 0
    (<[A 0 := 1]> (<[A 1 := 3]> (<[A 2 := 0]> {[A 3 := 2]}))) = inr true.
Proof.
  assert (backtracking_search 5 (model 4)
          = Return (<[A 0 := 1]> (<[A 1 := 3]> (<[A 2 := 0]> {[A 3 := 2]})))) as Hr.
  { vm_compute. reflexivity. }
  apply search_model_Return in Hr as (Hdom & _ & _ & Hatt).
  assert (∀ v, is_Some ((<[A 0 := 1]> (<[A 1 := 3]> (<[A 2 := 0]> {[A 3 := 2]}))
                           : gmap symbol Z) !! v)
               ↔ v ∈ NQueensCSP.variables (model 4)) as Hkeys.
  { intros v. rewrite Hdom. symmetry. apply elem_of_symbols_A. }
  pose proof (valid_iff_all_consistent 4 (model 4) _ eq_refl Hkeys) as Hiff.
  split; [exact Hiff|].
  apply (proj1 Hiff).
  - intros i j wi wj Hij Hi Hj. exact (Hatt i j wi wj Hij Hi Hj).
  - vm_compute. reflexivity.
Defined.

(** X20: the check is symmetric between two columns: row [v] for column
    [i] is consistent with column [j] on row [w] exactly when row [w] for
    column [j] is consistent with column [i] on row [v]. *)
Theorem is_consistent_symmetric (N : Z) (csp : NQueensCSP.t) (i j : nat) (v w : Z) :
  NQueensCSP.__init__ N = inr csp → Z.of_nat i < N → Z.of_nat j < N → i ≠ j →
  NQueensCSP.is_consistent csp (A i) v {[A j := w]}
  = NQueensCSP.is_consistent csp (A j) w {[A i := v]}.
Proof.
  intros [HN ->]%init_inr Hi Hj Hij. set (n := Z.to_nat N) in *.
  destruct (is_consistent_model n i v {[A j := w]} ltac:(lia)) as (b & -> & Hb).
  destruct (is_consistent_model n j w {[A i := v]} ltac:(lia)) as (b' & -> & Hb').
  f_equal. apply eq_bool_prop_intro. rewrite !Is_true_true, Hb, Hb'. split.
  - intros Hall k u Hk Hkj. destruct (decide (k = i)) as [->|Hki].
    + rewrite lookup_singleton_eq. intros [= <-].
      apply no_attack_sym, (Hall j w); [lia|done|apply lookup_singleton_eq].
    + rewrite lookup_singleton_ne by (by apply A_ne). done.
  - intros Hall k u Hk Hki. destruct (decide (k = j)) as [->|Hkj].
    + rewrite lookup_singleton_eq. intros [= <-].
      apply no_attack_sym, (Hall i v); [lia|done|apply lookup_singleton_eq].
    + rewrite lookup_singleton_ne by (by apply A_ne). done.
Qed.

Lemma is_consistent_symmetric_witness :
  NQueensCSP.is_consistent (model 4) (A 0) 1 {[A 2 := 3]}
  = NQueensCSP.is_consistent (model 4) (A 2) 3 {[A 0 := 1]}.
Proof.
  apply (is_consistent_symmetric 4 (model 4) 0 2 1 3 eq_refl); lia.
Defined.

(** * Witnesses of the properties of the generic search *)

Lemma backtrack_all_bound_incomplete_witness :
  backtrack 1 (<[A 0 := 0]> {[col_diff := 0]}) (model 1) = Raise KeyError.
Proof.
  apply (backtrack_all_bound_incomplete (model 1) 0 (<[A 0 := 0]> {[col_diff := 0]})).
  - vm_compute. reflexivity.
  - intros v Hv. apply elem_of_cons in Hv as [->|Hv].
    + eexists. apply lookup_insert_eq.
    + apply elem_of_nil in Hv. destruct Hv.
Defined.

Lemma backtrack_Return_complete_witness :
  is_complete (model 4) (<[A 0 := 1]> (<[A 1 := 3]> (<[A 2 := 0]> {[A 3 := 2]}))) = true.
Proof.
  apply (backtrack_Return_complete (model 4) 5 ∅). vm_compute. reflexivity.
Defined.

Lemma backtrack_Return_extends_witness :
  ({[A 0 := 2]} : gmap symbol Z) ⊆ <[A 0 := 2]> (<[A 1 := 0]> (<[A 2 := 3]> {[A 3 := 1]})).
Proof.
  apply (backtrack_Return_extends (model 4) 4 {[A 0 := 2]}).
  - intros var val. reflexivity.
  - vm_compute. reflexivity.
Defined.

Lemma backtrack_depth_bound_witness : backtrack 5 ∅ (model 4) ≠ OutOfFuel.
Proof.
  apply (backtrack_depth_bound (model 4) 5 ∅).
  - intros var val. reflexivity.
  - vm_compute. lia.
Defined.

